(** * ini.c: a shallow embedding of the INI store, parser and writer

    The development follows [src/ini.c] function by function.

    Conventions of the embedding.
    - A C string ([char*] to a NUL-terminated array) is a [list ascii]; a
      [char*] that may be [NULL] ([name], [key], [val] arguments, the [val]
      field) is an [option cstring].
    - The singly linked lists ([next] pointers) are Rocq lists: a node followed
      by [next == NULL] is the last element.  A pointer into a list that a
      function returns is the position of the node in the list.
    - [struct inisection] nodes of the section list are always built by
      [makesection], which refuses a [NULL] name, so their [name] is a
      [cstring]; the default section, whose name is [NULL], is kept apart in
      the document as its pair list, and shows its [NULL] name as [None]
      wherever a section name is reported.  It is always there, as [makeini]
      leaves it, so [inif->default_section == NULL] has no counterpart.
    - A pointer to the document or to a section that a function receives is
      not [NULL]: the guards on them ([ini == NULL], [sec == NULL]) have no
      counterpart.  Pointers that the callers of [ini.c] do pass as [NULL]
      (strings, and the pairs and sections that [makepair] and [makesection]
      return) are options.
    - Allocation ([calloc], [strdup]) is assumed to succeed; [free] has no
      counterpart.
    - Functions that change the document in place return the document
      afterwards next to their C result. *)

From Stdlib Require Import List Ascii ZArith NArith Bool Lia.
From Stdlib Require String.
Import ListNotations String.StringSyntax.

Local Open Scope string_scope.
Local Open Scope list_scope.

(** ** C strings *)

Definition cstring := list ascii.

(** Literals for examples: [cs "abc"] is the C string "abc". *)
Definition cs (s : String.string) : cstring := String.list_ascii_of_string s.

Definition NUL : ascii := ascii_of_nat 0.
Definition NL : ascii := ascii_of_nat 10.

(** [strcmp] compares byte by byte as [unsigned char]; only the sign of its
    result is specified, which is what [comparison] records. *)
Fixpoint strcmp (a b : cstring) : comparison :=
  match a, b with
  | [], [] => Eq
  | [], _ :: _ => Lt
  | _ :: _, [] => Gt
  | x :: a', y :: b' =>
      match N.compare (N_of_ascii x) (N_of_ascii y) with
      | Eq => strcmp a' b'
      | Lt => Lt
      | Gt => Gt
      end
  end.

(** ** Data model ([ini.h]) *)

Record inipair := mkpair { key : cstring; val : option cstring }.

Record inisection := mksection { name : cstring; head : list inipair }.

Record inifile := mkini {
  ihead : list inisection;        (* [head]: the list of named sections *)
  default_section : list inipair; (* pairs of the section whose name is NULL *)
  flags : Z
}.

Definition INIO_NONE : Z := 0.
Definition INIO_SPACE_AROUND_DELIM : Z := Z.shiftl 1 0.
Definition INIO_ALLOW_EMPTY : Z := Z.shiftl 1 1.
Definition INIO_ALL : Z := -1. (* 0xFFFFFFFF stored in an int *)

(** [flags & opt] used as a condition. *)
Definition has_flag (fl opt : Z) : bool := negb (Z.land fl opt =? 0)%Z.

(** A pointer to a section of a document. *)
Inductive secptr := DefaultSec | NamedSec (i : nat).

(** ** Constructors *)

Definition makesection (name : option cstring) : option inisection :=
  match name with
  | None => None
  | Some n => Some {| name := n; head := [] |}
  end.

Definition makeini (flags : Z) : inifile :=
  {| ihead := []; default_section := []; flags := flags |}.

Definition makepair (key val : option cstring) : option inipair :=
  match key with
  | None => None
  | Some k => Some {| key := k; val := val |}
  end.

(** ** Sorted insertion *)

(** The [while (curr->next != NULL)] loop of [section_insert]; [curr] is the
    node under the cursor and [rest] the nodes after it.  The result is the
    list from [curr] on and the position in it of the returned section. *)
Fixpoint section_insert_loop (sec curr : inisection) (rest : list inisection)
  : list inisection * nat :=
  match rest with
  | [] => ([curr; sec], 1%nat)
  | nxt :: rest' =>
      match strcmp (name sec) (name curr) with
      | Lt => (sec :: curr :: rest, 0%nat)
      | Eq => (curr :: rest, 0%nat)
      | Gt => let '(l, i) := section_insert_loop sec nxt rest' in
              (curr :: l, S i)
      end
  end.

(** [section_insert file sec]: the section list afterwards and the returned
    pointer ([None] is [NULL]). *)
Definition section_insert (file : inifile) (sec : option inisection)
  : inifile * option nat :=
  match sec with
  | None => (file, None)
  | Some sec =>
      match ihead file with
      | [] => ({| ihead := [sec]; default_section := default_section file;
                  flags := flags file |}, Some 0%nat)
      | curr :: rest =>
          let '(l, i) := section_insert_loop sec curr rest in
          ({| ihead := l; default_section := default_section file;
              flags := flags file |}, Some i)
      end
  end.

(** The loop of [pair_insert], on the pair list of the section. *)
Fixpoint pair_insert_loop (pair curr : inipair) (rest : list inipair)
  : list inipair * nat :=
  match rest with
  | [] => ([curr; pair], 1%nat)
  | nxt :: rest' =>
      match strcmp (key pair) (key curr) with
      | Lt => (pair :: curr :: rest, 0%nat)
      | Eq => (pair :: rest, 0%nat)
      | Gt => let '(l, i) := pair_insert_loop pair nxt rest' in
              (curr :: l, S i)
      end
  end.

(** [pair_insert sec pair] on [sec->head]: the list afterwards and the
    position of the returned pair ([None] is [NULL]). *)
Definition pair_insert (sechead : list inipair) (pair : option inipair)
  : list inipair * option nat :=
  match pair with
  | None => (sechead, None)
  | Some new =>
      match sechead with
      | [] => ([new], Some 0%nat)
      | curr :: rest =>
          let '(l, i) := pair_insert_loop new curr rest in (l, Some i)
      end
  end.

(** ** Lookup *)

Fixpoint find_section (nm : cstring) (l : list inisection) : option nat :=
  match l with
  | [] => None
  | s :: l' =>
      match strcmp nm (name s) with
      | Eq => Some 0%nat
      | _ => option_map S (find_section nm l')
      end
  end.

Definition ini_getsection (ini : inifile) (nm : option cstring)
  : option secptr :=
  match nm with
  | None => Some DefaultSec
  | Some n => option_map NamedSec (find_section n (ihead ini))
  end.

Fixpoint find_pair (k : cstring) (l : list inipair) : option nat :=
  match l with
  | [] => None
  | p :: l' =>
      match strcmp k (key p) with
      | Eq => Some 0%nat
      | _ => option_map S (find_pair k l')
      end
  end.

(** [inisection_getpair section key] on [section->head]. *)
Definition inisection_getpair (sechead : list inipair) (k : option cstring)
  : option nat :=
  match k with
  | None => None
  | Some k => find_pair k sechead
  end.

(** [s->head] for a section pointer [s] of the document. *)
Definition sec_head (ini : inifile) (s : secptr) : list inipair :=
  match s with
  | DefaultSec => default_section ini
  | NamedSec i =>
      match nth_error (ihead ini) i with
      | Some sec => head sec
      | None => []
      end
  end.

(** In-place update of the node at position [i]. *)
Fixpoint alter_nth {A} (f : A -> A) (i : nat) (l : list A) : list A :=
  match l, i with
  | [], _ => []
  | x :: l', O => f x :: l'
  | x :: l', S i' => x :: alter_nth f i' l'
  end.

(** Store [h] in [s->head]. *)
Definition set_sec_head (ini : inifile) (s : secptr) (h : list inipair)
  : inifile :=
  match s with
  | DefaultSec =>
      {| ihead := ihead ini; default_section := h; flags := flags ini |}
  | NamedSec i =>
      {| ihead := alter_nth (fun sec => {| name := name sec; head := h |}) i
                    (ihead ini);
         default_section := default_section ini; flags := flags ini |}
  end.

(** A pointer to a pair of the document: its section and its position. *)
Definition pairptr : Type := secptr * nat.

Definition deref_pair (ini : inifile) (p : pairptr) : option inipair :=
  nth_error (sec_head ini (fst p)) (snd p).

Definition ini_getpair (ini : inifile) (section k : option cstring)
  : option pairptr :=
  match ini_getsection ini section with
  | None => None
  | Some s => option_map (fun i => (s, i)) (inisection_getpair (sec_head ini s) k)
  end.

(** ** Mutation *)

(** [pair_setval pair val]: the pair afterwards and the returned [pair->val]. *)
Definition pair_setval (p : inipair) (v : option cstring)
  : inipair * option cstring :=
  let p1 := match val p with
            | Some _ => {| key := key p; val := None |}
            | None => p
            end in
  let p2 := match v with
            | Some v' => {| key := key p1; val := Some v' |}
            | None => p1
            end in
  (p2, val p2).

Definition ini_put (ini : inifile) (section k v : option cstring)
  : inifile * option pairptr :=
  match k with
  | None => (ini, None)
  | Some _ =>
      let '(ini1, s) :=
        match ini_getsection ini section with
        | Some s => (ini, Some s)
        | None =>
            let '(ini', r) := section_insert ini (makesection section) in
            (ini', option_map NamedSec r)
        end in
      match s with
      | None => (ini1, None)
      | Some s =>
          match inisection_getpair (sec_head ini1 s) k with
          | Some p => (ini1, Some (s, p))
          | None =>
              let '(h, r) := pair_insert (sec_head ini1 s) (makepair k v) in
              (set_sec_head ini1 s h, option_map (fun i => (s, i)) r)
          end
      end
  end.

Definition ini_set (ini : inifile) (section k v : option cstring)
  : inifile * option pairptr :=
  match k with
  | None => (ini, None)
  | Some _ =>
      match ini_getsection ini section with
      | None => (ini, None)
      | Some s =>
          match inisection_getpair (sec_head ini s) k with
          | None => (ini, None)
          | Some p =>
              let h := sec_head ini s in
              match nth_error h p with
              | None => (ini, None) (* [p] is a position of [h] *)
              | Some pr =>
                  let '(pr', r) := pair_setval pr v in
                  let ini' :=
                    set_sec_head ini s (alter_nth (fun _ => pr') p h) in
                  match r with
                  | None => (ini', None)
                  | Some _ => (ini', Some (s, p))
                  end
              end
          end
      end
  end.

(** ** Traversal *)

(** [ini_foreach ini cb]: the callback is a state transformer that receives the
    name of the section ([None] for the default section) and the pair. *)
Definition ini_foreach {A} (ini : inifile)
    (cb : option cstring -> inipair -> A -> A) (a : A) : A :=
  let a1 := fold_left (fun a p => cb None p a) (default_section ini) a in
  fold_left
    (fun a s => fold_left (fun a p => cb (Some (name s)) p a) (head s) a)
    (ihead ini) a1.

(** The sequence of (section name, key, value) triples of the traversal. *)
Definition triples (ini : inifile)
  : list (option cstring * cstring * option cstring) :=
  ini_foreach ini (fun s p acc => acc ++ [(s, key p, val p)]) [].

(** ** Streams ([stdio.h])

    A file on disk is its bytes and, for reading, an optional fault: with
    [fault = Some n] the read of byte number [n] (from 0) fails and puts the
    stream in its error state. *)

Record diskfile := mkdisk { bytes : cstring; fault : option nat }.

Record filesystem := mkfs {
  lookup : cstring -> option diskfile; (* files that [fopen(_, "r")] opens *)
  writable : cstring -> bool           (* paths that [fopen(_, "w")] opens *)
}.

(** An input stream. *)
Record FILE := mkFILE {
  unread : cstring;
  countdown : option nat;
  eof_ind : bool;
  err_ind : bool
}.

Definition fopen_r (fs : filesystem) (filename : cstring) : option FILE :=
  match lookup fs filename with
  | None => None
  | Some d => Some {| unread := bytes d; countdown := fault d;
                      eof_ind := false; err_ind := false |}
  end.

Definition feof (f : FILE) : bool := eof_ind f.
Definition ferror (f : FILE) : bool := err_ind f.

Definition fgetc (f : FILE) : option ascii * FILE :=
  match countdown f with
  | Some O =>
      (None, {| unread := unread f; countdown := countdown f;
                eof_ind := eof_ind f; err_ind := true |})
  | _ =>
      match unread f with
      | [] =>
          (None, {| unread := []; countdown := countdown f;
                    eof_ind := true; err_ind := err_ind f |})
      | c :: rest =>
          (Some c, {| unread := rest; countdown := option_map pred (countdown f);
                      eof_ind := eof_ind f; err_ind := err_ind f |})
      end
  end.

(** Reads at most [room] characters, stopping after a newline, at end of file
    or on a read error. *)
Fixpoint fgets_read (room : nat) (f : FILE) : cstring * FILE :=
  match room with
  | O => ([], f)
  | S room' =>
      match fgetc f with
      | (None, f') => ([], f')
      | (Some c, f') =>
          if Ascii.eqb c NL then ([c], f')
          else let '(s, f'') := fgets_read room' f' in (c :: s, f'')
      end
  end.

(** [fgets(buf, n, f)]: [None] is the null pointer, returned on a read error
    and at end of file when no character was read. *)
Definition fgets (n : nat) (f : FILE) : option cstring * FILE :=
  let '(s, f') := fgets_read (n - 1) f in
  if ferror f' then (None, f')
  else match s with
       | [] => (None, f')
       | _ => (Some s, f')
       end.

(** The C string held by a buffer: the characters before the first NUL. *)
Fixpoint c_str (buf : list ascii) : cstring :=
  match buf with
  | [] => []
  | c :: buf' => if Ascii.eqb c NUL then [] else c :: c_str buf'
  end.

(** ** [sscanf]

    The formats of [ini.c] use three kinds of directive: white space, an
    ordinary character, and [%<width>[^<excluded>]]. *)

Inductive directive :=
| Space
| Char (c : ascii)
| NotIn (width : nat) (excluded : list ascii).

Definition isspace (c : ascii) : bool :=
  let n := nat_of_ascii c in
  Nat.eqb n 32 || (Nat.leb 9 n && Nat.leb n 13).

Fixpoint skip_space (s : cstring) : cstring :=
  match s with
  | [] => []
  | c :: s' => if isspace c then skip_space s' else s
  end.

Definition excludes (excluded : list ascii) (c : ascii) : bool :=
  existsb (Ascii.eqb c) excluded.

(** The longest prefix of at most [width] characters outside [excluded], and
    what follows it. *)
Fixpoint scanset (width : nat) (excluded : list ascii) (s : cstring)
  : cstring * cstring :=
  match width, s with
  | S w, c :: s' =>
      if excludes excluded c then ([], s)
      else let '(tok, r) := scanset w excluded s' in (c :: tok, r)
  | _, _ => ([], s)
  end.

Definition EOF : Z := -1.

(** Return value when the input runs out: [EOF] before the first conversion,
    the number of assignments after it. *)
Definition input_failure (args : list cstring) : Z :=
  match args with
  | [] => EOF
  | _ => Z.of_nat (length args)
  end.

(** [args] are the strings assigned so far, in order.  The result is the return
    value and the strings assigned. *)
Fixpoint sscanf_from (fmt : list directive) (s : cstring) (args : list cstring)
  : Z * list cstring :=
  match fmt with
  | [] => (Z.of_nat (length args), args)
  | Space :: fmt' => sscanf_from fmt' (skip_space s) args
  | Char c :: fmt' =>
      match s with
      | [] => (input_failure args, args)
      | x :: s' =>
          if Ascii.eqb x c then sscanf_from fmt' s' args
          else (Z.of_nat (length args), args)
      end
  | NotIn w excluded :: fmt' =>
      match s with
      | [] => (input_failure args, args)
      | _ :: _ =>
          match scanset w excluded s with
          | ([], _) => (Z.of_nat (length args), args)
          | (tok, r) => sscanf_from fmt' r (args ++ [tok])
          end
      end
  end.

Definition sscanf (s : cstring) (fmt : list directive) : Z * list cstring :=
  sscanf_from fmt s [].

(** The [i]-th argument buffer after a call that assigned [args]. *)
Definition arg (i : nat) (args : list cstring) : cstring := nth i args [].

Definition ch (s : String.string) : ascii :=
  match s with
  | String.String c _ => c
  | String.EmptyString => NUL
  end.

(** [" [%256[^]]]"] *)
Definition fmt_section : list directive :=
  [Space; Char (ch "["); NotIn 256 [ch "]"]; Char (ch "]")].

(** [" %256[^=; ] = %256[^\n] "] *)
Definition fmt_spaces : list directive :=
  [Space; NotIn 256 [ch "="; ch ";"; ch " "]; Space; Char (ch "=");
   Space; NotIn 256 [NL]; Space].

(** [" %256[^=; ]=%256[^ \n] "] *)
Definition fmt_no_spaces : list directive :=
  [Space; NotIn 256 [ch "="; ch ";"; ch " "]; Char (ch "=");
   NotIn 256 [ch " "; NL]; Space].

(** [" %256[^=; ] \n"] *)
Definition fmt_key : list directive :=
  [Space; NotIn 256 [ch "="; ch ";"; ch " "]; Space].

(** ** Parser *)

(** The variables of the loop of [loadinifromfile] that outlive a line: the
    document and [tmpsec].  The buffers [tmpkey], [tmpval] and [tmpsection] are
    only read after a [sscanf] whose return value says that it assigned them,
    so they are taken from the result of that call.  They have 256 bytes; a
    match of the full width of 256 characters is kept whole here, while in C
    its NUL lands one byte past the buffer: on such a line the C program has
    no defined behaviour, and [process_line] is the program only on the lines
    that are [within_buffers] (defined below), where every field that a call
    of [sscanf] assigns is shorter than its buffer. *)
Record parser := mkparser { inif : inifile; tmpsec : secptr }.

(** The body of the loop after a successful [fgets]. *)
Definition process_line (st : parser) (tmpline : cstring) : parser :=
  let ini := inif st in
  let keyvalfmt :=
    if has_flag (flags ini) INIO_SPACE_AROUND_DELIM
    then fmt_spaces else fmt_no_spaces in
  let '(rval, a) := sscanf tmpline fmt_section in
  if (rval =? 1)%Z then
    let '(ini', tmpsec2) := section_insert ini (makesection (Some (arg 0 a))) in
    match tmpsec2 with
    | Some i => {| inif := ini'; tmpsec := NamedSec i |}
    | None => {| inif := ini'; tmpsec := tmpsec st |} (* [makesection] had a name *)
    end
  else
    let '(rval, a) := sscanf tmpline keyvalfmt in
    if (rval =? 2)%Z then
      let s := tmpsec st in
      let '(h, _) :=
        pair_insert (sec_head ini s)
          (makepair (Some (arg 0 a)) (Some (arg 1 a))) in
      {| inif := set_sec_head ini s h; tmpsec := s |}
    else if has_flag (flags ini) INIO_ALLOW_EMPTY then
      let '(rval, a) := sscanf tmpline fmt_key in
      if (rval =? 1)%Z then
        let s := tmpsec st in
        let '(h, _) :=
          pair_insert (sec_head ini s) (makepair (Some (arg 0 a)) None) in
        {| inif := set_sec_head ini s h; tmpsec := s |}
      else st
    else st.

(** [while (!feof(infile) && !ferror(infile))], bounded by [fuel] iterations;
    [None] when the bound is reached. *)
Fixpoint load_loop (fuel : nat) (infile : FILE) (st : parser)
  : option (parser * FILE) :=
  match fuel with
  | O => None
  | S fuel' =>
      if negb (feof infile) && negb (ferror infile) then
        match fgets 512 infile with
        | (None, infile') => load_loop fuel' infile' st
        | (Some tmpline, infile') =>
            load_loop fuel' infile' (process_line st (c_str tmpline))
        end
      else Some (st, infile)
  end.

(** [loadinifromfile inif filename]: the return value and the document
    afterwards.  Every iteration reads a character or raises an indicator, so
    two more iterations than there are bytes always suffice
    (see [load_loop_terminates]). *)
Definition loadinifromfile (fs : filesystem) (ini : inifile)
    (filename : option cstring) : option (Z * inifile) :=
  match filename with
  | None => Some (1%Z, ini)
  | Some fname =>
      match fopen_r fs fname with
      | None => Some (1%Z, ini)
      | Some infile =>
          match load_loop (S (S (length (unread infile)))) infile
                  {| inif := ini; tmpsec := DefaultSec |} with
          | None => None
          | Some (st, _) => Some (0%Z, inif st)
          end
      end
  end.

(** [newinifromfile filename flags]: [None] is the null pointer. *)
Definition newinifromfile (fs : filesystem) (filename : option cstring)
    (fl : Z) : option inifile :=
  match filename with
  | None => None
  | Some _ =>
      match loadinifromfile fs (makeini fl) filename with
      | Some (rv, ini) => if (rv =? 1)%Z then None else Some ini
      | None => None
      end
  end.

(** ** Writer *)

(** [fprintf(outfile, ...)] appends to what was written so far. *)
Definition fprintf (outfile : cstring) (text : cstring) : cstring :=
  outfile ++ text.

(** The loop over the pairs of one section. *)
Definition write_pairs (fl : Z) (ps : list inipair) (outfile : cstring)
  : cstring :=
  fold_left
    (fun out p =>
       match val p with
       | Some v => fprintf out (key p ++ [ch "="] ++ v ++ [NL])
       | None =>
           if has_flag fl INIO_ALLOW_EMPTY
           then fprintf out (key p ++ [ch "="] ++ [NL])
           else out
       end)
    ps outfile.

(** The loop over the named sections. *)
Definition write_sections (fl : Z) (ss : list inisection) (outfile : cstring)
  : cstring :=
  fold_left
    (fun out s =>
       match head s with
       | [] => out
       | _ :: _ =>
           let out1 := fprintf out ([ch "["] ++ name s ++ [ch "]"] ++ [NL]) in
           let out2 := write_pairs fl (head s) out1 in
           fprintf out2 [NL]
       end)
    ss outfile.

(** What [writeinitofile] sends to the stream it opened. *)
Definition written (ini : inifile) : cstring :=
  let out1 := write_pairs (flags ini) (default_section ini) [] in
  let out2 := fprintf out1 [NL] in
  write_sections (flags ini) (ihead ini) out2.

(** [writeinitofile ini filename]: the return value and the file system
    afterwards. *)
Definition writeinitofile (fs : filesystem) (ini : inifile)
    (filename : option cstring) : Z * filesystem :=
  match filename with
  | None => (1%Z, fs)
  | Some fname =>
      if writable fs fname then
        (0%Z,
         {| lookup := fun f =>
              if list_eq_dec ascii_dec f fname
              then Some {| bytes := written ini; fault := None |}
              else lookup fs f;
            writable := writable fs |})
      else (1%Z, fs)
  end.

(** ** Orderings of the stores *)

Definition key_lt (p q : inipair) : Prop := strcmp (key p) (key q) = Lt.
Definition name_lt (s t : inisection) : Prop := strcmp (name s) (name t) = Lt.

(** Strictly ascending under [strcmp]: every string is below its successor. *)
Fixpoint ascending (l : list cstring) : bool :=
  match l with
  | a :: ((b :: _) as t) =>
      match strcmp a b with
      | Lt => ascending t
      | _ => false
      end
  | _ => true
  end.

Definition ascending_keys (h : list inipair) : Prop :=
  ascending (map key h) = true.
Definition ascending_names (l : list inisection) : Prop :=
  ascending (map name l) = true.

(** Successive [pair_insert]s into a section that starts empty. *)
Definition insert_pairs (ps : list inipair) : list inipair :=
  fold_left (fun h p => fst (pair_insert h (Some p))) ps [].

(** Successive [section_insert]s into a document. *)
Definition insert_sections (ini : inifile) (ss : list inisection) : inifile :=
  fold_left (fun f s => fst (section_insert f (Some s))) ss ini.

(** A section pointer that [ini_getsection] can return. *)
Definition valid_sec (ini : inifile) (s : secptr) : Prop :=
  match s with
  | DefaultSec => True
  | NamedSec i => nth_error (ihead ini) i <> None
  end.


(** What exists in a document, values apart: the keys of the default section,
    and the names of the sections with the keys of each. *)
Definition skeleton (ini : inifile)
  : list cstring * list (cstring * list cstring) :=
  (map key (default_section ini),
   map (fun s => (name s, map key (head s))) (ihead ini)).

(** ** The layout of the written file, as the specification words it *)

(** The line of one pair: [key=value], or [key=] for a pair without value when
    empty values are allowed, and nothing otherwise. *)
Definition pair_line (fl : Z) (p : inipair) : cstring :=
  match val p with
  | Some v => key p ++ [ch "="] ++ v ++ [NL]
  | None =>
      if has_flag fl INIO_ALLOW_EMPTY then key p ++ [ch "="] ++ [NL] else []
  end.

(** The block of a named section: nothing when it has no pair, else the
    [[name]] line, the lines of its pairs and a blank line. *)
Definition section_block (fl : Z) (s : inisection) : cstring :=
  match head s with
  | [] => []
  | _ :: _ =>
      [ch "["] ++ name s ++ [ch "]"] ++ [NL]
      ++ concat (map (pair_line fl) (head s)) ++ [NL]
  end.

(** The default block, a blank line, then the blocks of the named sections in
    list order. *)
Definition layout (ini : inifile) : cstring :=
  concat (map (pair_line (flags ini)) (default_section ini))
  ++ [NL]
  ++ concat (map (section_block (flags ini)) (ihead ini)).

(** ** Progress of the reading loop *)

(** An upper bound on the iterations that the loop of [loadinifromfile] can
    still make on a stream. *)
Definition remaining (f : FILE) : nat :=
  if eof_ind f || err_ind f then 0%nat else S (length (unread f)).

(** A fresh stream over [content] that never fails. *)
Definition stream_of (content : cstring) : FILE :=
  {| unread := content; countdown := None; eof_ind := false;
     err_ind := false |}.

(** ** The lines that the loop reads *)

(** What one [fgets] of at most [room] characters takes from the bytes ahead,
    and what it leaves. *)
Fixpoint take_line (room : nat) (s : cstring) : cstring * cstring :=
  match room, s with
  | S room', c :: s' =>
      if Ascii.eqb c NL then ([c], s')
      else let '(l, r) := take_line room' s' in (c :: l, r)
  | _, _ => ([], s)
  end.

Fixpoint lines_upto (n : nat) (s : cstring) : list cstring :=
  match n, s with
  | S n', _ :: _ => let '(l, r) := take_line 511 s in l :: lines_upto n' r
  | _, _ => []
  end.

(** The successive contents of [tmpline] over a file: lines end after a
    newline, after 511 characters, or with the file. *)
Definition file_lines (s : cstring) : list cstring := lines_upto (length s) s.

(** The parse of [content] from the state [st], line by line. *)
Definition run (st : parser) (content : cstring) : parser :=
  fold_left process_line (map c_str (file_lines content)) st.

(** ** Recognition of a line, as the specification words it *)

Inductive recognition :=
| Header (nm : cstring)
| KeyValue (k v : cstring)
| BareKey (k : cstring)
| Ignored.

Definition keyvalfmt (fl : Z) : list directive :=
  if has_flag fl INIO_SPACE_AROUND_DELIM then fmt_spaces else fmt_no_spaces.

Definition is_header (line : cstring) : bool :=
  (fst (sscanf line fmt_section) =? 1)%Z.
Definition is_keyvalue (fl : Z) (line : cstring) : bool :=
  (fst (sscanf line (keyvalfmt fl)) =? 2)%Z.
Definition is_barekey (line : cstring) : bool :=
  (fst (sscanf line fmt_key) =? 1)%Z.

(** Section header first, then delimited pair, then, only with
    [INIO_ALLOW_EMPTY], bare key; otherwise the line is ignored. *)
Definition recognise (fl : Z) (line : cstring) : recognition :=
  if is_header line then
    Header (arg 0 (snd (sscanf line fmt_section)))
  else if is_keyvalue fl line then
    KeyValue (arg 0 (snd (sscanf line (keyvalfmt fl))))
             (arg 1 (snd (sscanf line (keyvalfmt fl))))
  else if has_flag fl INIO_ALLOW_EMPTY && is_barekey line then
    BareKey (arg 0 (snd (sscanf line fmt_key)))
  else Ignored.

(** Insert a pair into the current section. *)
Definition add_pair (st : parser) (k : cstring) (v : option cstring) : parser :=
  {| inif := set_sec_head (inif st) (tmpsec st)
               (fst (pair_insert (sec_head (inif st) (tmpsec st))
                       (Some {| key := k; val := v |})));
     tmpsec := tmpsec st |}.

(** Create or fetch the section and make it the current one. *)
Definition enter_section (st : parser) (nm : cstring) : parser :=
  let r := section_insert (inif st) (Some {| name := nm; head := [] |}) in
  {| inif := fst r;
     tmpsec := match snd r with
               | Some i => NamedSec i
               | None => tmpsec st
               end |}.

Definition act (st : parser) (r : recognition) : parser :=
  match r with
  | Header nm => enter_section st nm
  | KeyValue k v => add_pair st k (Some v)
  | BareKey k => add_pair st k None
  | Ignored => st
  end.

(** ** Documents that survive a write and a parse *)

(** No character of [s] is in [bad]. *)
Definition free_of (bad : list ascii) (s : cstring) : bool :=
  forallb (fun c => negb (excludes bad c)) s.

(** Not empty, and fits with its NUL the 256 bytes of [tmpkey], [tmpval] and
    [tmpsection]. *)
Definition fits (s : cstring) : bool :=
  (1 <=? length s)%nat && (length s <? 256)%nat.

Definition key_ok (k : cstring) : bool :=
  fits k && free_of [NUL; NL; ch "="; ch ";"; ch " "] k
  && match k with
     | c :: _ => negb (isspace c) && negb (Ascii.eqb c (ch "["))
     | [] => false
     end.

Definition value_ok (fl : Z) (v : cstring) : bool :=
  fits v && free_of [NUL; NL] v
  && if has_flag fl INIO_SPACE_AROUND_DELIM
     then match v with
          | c :: _ => negb (isspace c)
          | [] => false
          end
     else free_of [ch " "] v.

Definition name_ok (n : cstring) : bool :=
  fits n && free_of [NUL; NL; ch "]"] n.

Definition pair_ok (fl : Z) (p : inipair) : bool :=
  key_ok (key p)
  && match val p with
     | Some v => value_ok fl v
     | None => has_flag fl INIO_ALLOW_EMPTY
     end.

Definition section_ok (fl : Z) (s : inisection) : bool :=
  name_ok (name s) && forallb (pair_ok fl) (head s)
  && ascending (map key (head s)).

Definition representable (ini : inifile) : bool :=
  forallb (pair_ok (flags ini)) (default_section ini)
  && ascending (map key (default_section ini))
  && forallb (section_ok (flags ini)) (ihead ini)
  && ascending (map name (ihead ini)).

(** Representable data in the words of the specification: no empty key, no
    [=], [;] or space in keys or section names, no newline in values. *)
Definition spec_representable (ini : inifile) : bool :=
  let plain := free_of [ch "="; ch ";"; ch " "] in
  let pair_plain p :=
    (1 <=? length (key p))%nat && plain (key p)
    && match val p with
       | Some v => free_of [NL] v
       | None => true
       end in
  forallb pair_plain (default_section ini)
  && forallb (fun s => plain (name s) && forallb pair_plain (head s))
       (ihead ini).

Definition has_pairs (s : inisection) : bool :=
  match head s with
  | [] => false
  | _ :: _ => true
  end.

(** The document without its sections that have no pair. *)
Definition prune (ini : inifile) : inifile :=
  {| ihead := filter has_pairs (ihead ini);
     default_section := default_section ini;
     flags := flags ini |}.

(** ** Small inputs *)

(** A file system in which every name opens the same readable file. *)
Definition one_file (content : cstring) : filesystem :=
  {| lookup := fun _ => Some {| bytes := content; fault := None |};
     writable := fun _ => true |}.

(** Parse [content] into a fresh document with the flags [fl]. *)
Definition parse (fl : Z) (content : cstring) : option (Z * inifile) :=
  loadinifromfile (one_file content) (makeini fl) (Some (cs "in.ini")).

(** Write [ini], then parse the file into a fresh document with the same
    flags. *)
Definition reparse (ini : inifile) : option (Z * inifile) :=
  loadinifromfile (snd (writeinitofile (one_file []) ini (Some (cs "out.ini"))))
    (makeini (flags ini)) (Some (cs "out.ini")).

(** A document with nothing but one pair in its default section. *)
Definition single (fl : Z) (k : cstring) (v : option cstring) : inifile :=
  {| ihead := []; default_section := [{| key := k; val := v |}]; flags := fl |}.

(** ** Further functions of [ini.c] and notions used to state their
    properties *)

(** [parseini ini cb] calls [ini_foreach]. *)
Definition parseini {A} (ini : inifile)
    (cb : option cstring -> inipair -> A -> A) (a : A) : A :=
  ini_foreach ini cb a.

(** The calls that a traversal makes, in order: the name of the section and
    the pair. *)
Definition visits (ini : inifile) : list (option cstring * inipair) :=
  map (fun p => (None, p)) (default_section ini)
  ++ flat_map (fun s => map (fun p => (Some (name s), p)) (head s)) (ihead ini).

(** The (section name, key) couples of a document, in traversal order. *)
Definition keys_of (ini : inifile) : list (option cstring * cstring) :=
  map (fun v => (fst v, key (snd v))) (visits ini).

(** A string that [%<w>[^<excluded>]] can assign: not empty, at most [w]
    characters, none of them excluded. *)
Definition field (w : nat) (excluded : list ascii) (tok : cstring) : Prop :=
  tok <> [] /\ (length tok <= w)%nat /\ free_of excluded tok = true.

(** The conversions of a format, in order. *)
Fixpoint conversions (fmt : list directive) : list (nat * list ascii) :=
  match fmt with
  | [] => []
  | NotIn w excluded :: fmt' => (w, excluded) :: conversions fmt'
  | _ :: fmt' => conversions fmt'
  end.

(** ** Lines that the buffers of the parser can hold *)

(** Every string that [sscanf line fmt] assigns leaves room for its NUL in a
    buffer of 256 bytes. *)
Definition fields_fit (line : cstring) (fmt : list directive) : bool :=
  forallb (fun a => (length a <? 256)%nat) (snd (sscanf line fmt)).

(** No call of [sscanf] that the body of the loop makes on [line] writes past
    [tmpsection], [tmpkey] or [tmpval]: the section format is always tried,
    the pair format when the line is no header, the key format when the line
    is no pair either and [INIO_ALLOW_EMPTY] is set. *)
Definition within_buffers (fl : Z) (line : cstring) : bool :=
  fields_fit line fmt_section
  && (is_header line
      || (fields_fit line (keyvalfmt fl)
          && (is_keyvalue fl line
              || negb (has_flag fl INIO_ALLOW_EMPTY)
              || fields_fit line fmt_key))).
(** * Properties *)

(** ** [strcmp] *)

Lemma strcmp_refl (a : cstring) : strcmp a a = Eq.
Proof.
  induction a as [|x a IH]; simpl; [reflexivity|].
  now rewrite N.compare_refl.
Qed.

Lemma strcmp_eq (a b : cstring) : strcmp a b = Eq <-> a = b.
Proof.
  split; [|intros ->; apply strcmp_refl].
  revert b; induction a as [|x a IH]; intros [|y b]; simpl; try discriminate;
    [reflexivity|].
  destruct (N.compare (N_of_ascii x) (N_of_ascii y)) eqn:E; try discriminate.
  apply N.compare_eq in E.
  intros H. apply IH in H. subst b.
  f_equal.
  rewrite <- (ascii_N_embedding x), <- (ascii_N_embedding y).
  now rewrite E.
Qed.

Lemma strcmp_antisym (a b : cstring) : strcmp a b = CompOpp (strcmp b a).
Proof.
  revert b; induction a as [|x a IH]; intros [|y b]; simpl; try reflexivity.
  rewrite (N.compare_antisym (N_of_ascii x) (N_of_ascii y)).
  destruct (N.compare (N_of_ascii x) (N_of_ascii y)); simpl; auto.
Qed.

Lemma strcmp_lt_gt (a b : cstring) : strcmp a b = Lt -> strcmp b a = Gt.
Proof. intros H. rewrite strcmp_antisym, H. reflexivity. Qed.

Lemma strcmp_lt_trans (a b c : cstring) :
  strcmp a b = Lt -> strcmp b c = Lt -> strcmp a c = Lt.
Proof.
  revert b c; induction a as [|x a IH]; intros [|y b] [|z c]; simpl;
    try discriminate; try reflexivity.
  destruct (N.compare (N_of_ascii x) (N_of_ascii y)) eqn:Exy;
    destruct (N.compare (N_of_ascii y) (N_of_ascii z)) eqn:Eyz;
    try discriminate; intros Hab Hbc.
  - apply N.compare_eq in Exy, Eyz. rewrite Exy, Eyz, N.compare_refl.
    eapply IH; eassumption.
  - apply N.compare_eq in Exy. rewrite Exy, Eyz. reflexivity.
  - apply N.compare_eq in Eyz. rewrite <- Eyz, Exy. reflexivity.
  - rewrite N.compare_lt_iff in Exy, Eyz.
    assert (E : N.compare (N_of_ascii x) (N_of_ascii z) = Lt)
      by (rewrite N.compare_lt_iff; lia).
    rewrite E. reflexivity.
Qed.

(** ** Sorted insertion: what the loops do *)

(** A pair whose key is above every key of the list goes to the end. *)
Lemma pair_insert_loop_append (p curr : inipair) (rest : list inipair) :
  Forall (fun q => key_lt q p) (curr :: rest) ->
  pair_insert_loop p curr rest
  = (curr :: rest ++ [p], S (length rest)).
Proof.
  revert curr; induction rest as [|nxt rest IH]; intros curr H; simpl.
  - reflexivity.
  - inversion H as [|? ? Hc Hr]; subst.
    rewrite (strcmp_lt_gt _ _ Hc), (IH nxt Hr). reflexivity.
Qed.

Lemma pair_insert_append (h : list inipair) (p : inipair) :
  Forall (fun q => key_lt q p) h ->
  pair_insert h (Some p) = (h ++ [p], Some (length h)).
Proof.
  destruct h as [|curr rest]; intros H; simpl; [reflexivity|].
  now rewrite pair_insert_loop_append.
Qed.

Lemma section_insert_loop_append (s curr : inisection) rest :
  Forall (fun t => name_lt t s) (curr :: rest) ->
  section_insert_loop s curr rest
  = (curr :: rest ++ [s], S (length rest)).
Proof.
  revert curr; induction rest as [|nxt rest IH]; intros curr H; simpl.
  - reflexivity.
  - inversion H as [|? ? Hc Hr]; subst.
    rewrite (strcmp_lt_gt _ _ Hc), (IH nxt Hr). reflexivity.
Qed.

Lemma section_insert_append (ini : inifile) (s : inisection) :
  Forall (fun t => name_lt t s) (ihead ini) ->
  section_insert ini (Some s)
  = ({| ihead := ihead ini ++ [s]; default_section := default_section ini;
        flags := flags ini |}, Some (length (ihead ini))).
Proof.
  unfold section_insert.
  destruct (ihead ini) as [|curr rest]; intros H; simpl; [reflexivity|].
  now rewrite section_insert_loop_append.
Qed.

(** ** C1, C2, C3: the last node is never compared *)

(** C1. The pair store is meant to stay strictly ascending by key without
    duplicates under [pair_insert].  The loop stops at the last node without
    comparing it: inserting ["b"] and then ["a"] into an empty section leaves
    the list ["b"; "a"], and inserting ["b"] twice leaves two pairs of key
    ["b"]. *)
Theorem pair_insert_breaks_order :
  let b := {| key := cs "b"; val := Some (cs "1") |} in
  let a := {| key := cs "a"; val := Some (cs "2") |} in
  insert_pairs [b; a] = [b; a]
  /\ ~ ascending_keys (insert_pairs [b; a])
  /\ insert_pairs [b; b] = [b; b]
  /\ ~ NoDup (map key (insert_pairs [b; b])).
Proof.
  cbv zeta. repeat split.
  - intros H. discriminate H.
  - intros H. inversion H as [|? ? Hn _]; subst. apply Hn. now left.
Qed.

(** C2. The section store is meant to stay strictly ascending by name, and
    inserting a name already present is meant to return the resident section
    and change nothing.  When the resident section is the last node it is not
    compared: the new, empty section is appended after it and returned; and
    inserting ["b"] then ["a"] leaves the order ["b"; "a"]. *)
Theorem section_insert_misses_last :
  let resident :=
    {| name := cs "S"; head := [{| key := cs "k"; val := Some (cs "v") |}] |} in
  let incoming := {| name := cs "S"; head := [] |} in
  let file := {| ihead := [resident]; default_section := []; flags := 0 |} in
  let b := {| name := cs "b"; head := [] |} in
  let a := {| name := cs "a"; head := [] |} in
  section_insert file (makesection (Some (cs "S")))
  = ({| ihead := [resident; incoming]; default_section := []; flags := 0 |},
     Some 1%nat)
  /\ ihead (insert_sections (makeini 0) [b; a]) = [b; a]
  /\ ~ ascending_names (ihead (insert_sections (makeini 0) [b; a])).
Proof.
  cbv zeta. repeat split.
  intros H. discriminate H.
Qed.

(** C3. [pair_insert] is meant to replace a pair of the same key, so that a
    later lookup finds the new pair.  When the pair of that key is the last
    node it is kept and the new pair is appended after it: the lookup still
    finds the old pair. *)
Theorem pair_insert_last_not_replaced :
  let old := {| key := cs "k"; val := Some (cs "old") |} in
  let new := {| key := cs "k"; val := Some (cs "new") |} in
  pair_insert [old] (Some new) = ([old; new], Some 1%nat)
  /\ inisection_getpair (fst (pair_insert [old] (Some new))) (Some (cs "k"))
     = Some 0%nat
  /\ nth_error (fst (pair_insert [old] (Some new))) 0 = Some old.
Proof. cbv zeta. repeat split. Qed.

(** ** Positions returned by the lookups *)

Lemma find_pair_some (k : cstring) (l : list inipair) (i : nat) :
  find_pair k l = Some i ->
  exists p, nth_error l i = Some p /\ key p = k.
Proof.
  revert i; induction l as [|q l IH]; intros i; simpl; [discriminate|].
  destruct (strcmp k (key q)) eqn:E.
  - intros [= <-]. exists q. split; [reflexivity|].
    symmetry. now apply strcmp_eq.
  - destruct (find_pair k l) as [j|]; [|discriminate].
    intros [= <-]. apply (IH j eq_refl).
  - destruct (find_pair k l) as [j|]; [|discriminate].
    intros [= <-]. apply (IH j eq_refl).
Qed.

Lemma find_section_some (n : cstring) (l : list inisection) (i : nat) :
  find_section n l = Some i ->
  exists s, nth_error l i = Some s /\ name s = n.
Proof.
  revert i; induction l as [|q l IH]; intros i; simpl; [discriminate|].
  destruct (strcmp n (name q)) eqn:E.
  - intros [= <-]. exists q. split; [reflexivity|].
    symmetry. now apply strcmp_eq.
  - destruct (find_section n l) as [j|]; [|discriminate].
    intros [= <-]. apply (IH j eq_refl).
  - destruct (find_section n l) as [j|]; [|discriminate].
    intros [= <-]. apply (IH j eq_refl).
Qed.

Lemma find_pair_cons_ne (k : cstring) (q : inipair) (l : list inipair) :
  strcmp k (key q) <> Eq ->
  find_pair k (q :: l) = option_map S (find_pair k l).
Proof. simpl. destruct (strcmp k (key q)); congruence. Qed.

Lemma find_section_cons_ne (n : cstring) (q : inisection) l :
  strcmp n (name q) <> Eq ->
  find_section n (q :: l) = option_map S (find_section n l).
Proof. simpl. destruct (strcmp n (name q)); congruence. Qed.

Lemma find_pair_cons_none (k : cstring) (q : inipair) (l : list inipair) :
  find_pair k (q :: l) = None ->
  strcmp k (key q) <> Eq /\ find_pair k l = None.
Proof.
  simpl. destruct (strcmp k (key q)); try discriminate;
    destruct (find_pair k l); try discriminate; split; congruence.
Qed.

Lemma find_section_cons_none (n : cstring) (q : inisection) l :
  find_section n (q :: l) = None ->
  strcmp n (name q) <> Eq /\ find_section n l = None.
Proof.
  simpl. destruct (strcmp n (name q)); try discriminate;
    destruct (find_section n l); try discriminate; split; congruence.
Qed.

(** Inserting a pair whose key is not in the list: the pair is where the
    returned position says, and the lookup of its key finds it there. *)
Lemma pair_insert_loop_fresh (p curr : inipair) (rest : list inipair) :
  find_pair (key p) (curr :: rest) = None ->
  let '(l, i) := pair_insert_loop p curr rest in
  find_pair (key p) l = Some i /\ nth_error l i = Some p.
Proof.
  revert curr; induction rest as [|nxt rest IH]; intros curr H.
  - apply find_pair_cons_none in H as [Hc _]. simpl.
    destruct (strcmp (key p) (key curr)); try congruence;
      rewrite strcmp_refl; auto.
  - apply find_pair_cons_none in H as [Hc Hr].
    cbn [pair_insert_loop].
    destruct (strcmp (key p) (key curr)) eqn:E; [congruence| |].
    + simpl. rewrite strcmp_refl. auto.
    + specialize (IH nxt Hr).
      destruct (pair_insert_loop p nxt rest) as [l i].
      destruct IH as [IH1 IH2].
      rewrite find_pair_cons_ne, IH1 by congruence. auto.
Qed.

Lemma pair_insert_fresh (h : list inipair) (p : inipair) :
  find_pair (key p) h = None ->
  exists h' i, pair_insert h (Some p) = (h', Some i)
               /\ find_pair (key p) h' = Some i /\ nth_error h' i = Some p.
Proof.
  destruct h as [|curr rest]; intros H; simpl.
  - exists [p], 0%nat. simpl. rewrite strcmp_refl. auto.
  - pose proof (pair_insert_loop_fresh p curr rest H) as L.
    destruct (pair_insert_loop p curr rest) as [l i].
    exists l, i. tauto.
Qed.

Lemma section_insert_loop_fresh (s curr : inisection) rest :
  find_section (name s) (curr :: rest) = None ->
  let '(l, i) := section_insert_loop s curr rest in
  find_section (name s) l = Some i /\ nth_error l i = Some s.
Proof.
  revert curr; induction rest as [|nxt rest IH]; intros curr H.
  - apply find_section_cons_none in H as [Hc _]. simpl.
    destruct (strcmp (name s) (name curr)); try congruence;
      rewrite strcmp_refl; auto.
  - apply find_section_cons_none in H as [Hc Hr].
    cbn [section_insert_loop].
    destruct (strcmp (name s) (name curr)) eqn:E; [congruence| |].
    + simpl. rewrite strcmp_refl. auto.
    + specialize (IH nxt Hr).
      destruct (section_insert_loop s nxt rest) as [l i].
      destruct IH as [IH1 IH2].
      rewrite find_section_cons_ne, IH1 by congruence. auto.
Qed.

Lemma section_insert_fresh (ini : inifile) (s : inisection) :
  find_section (name s) (ihead ini) = None ->
  exists ini' i, section_insert ini (Some s) = (ini', Some i)
                 /\ find_section (name s) (ihead ini') = Some i
                 /\ nth_error (ihead ini') i = Some s.
Proof.
  unfold section_insert.
  destruct (ihead ini) as [|curr rest]; intros H.
  - eexists _, 0%nat. split; [reflexivity|].
    simpl. rewrite strcmp_refl. auto.
  - pose proof (section_insert_loop_fresh s curr rest H) as L.
    destruct (section_insert_loop s curr rest) as [l i].
    eexists _, i. simpl. tauto.
Qed.

(** ** In-place updates *)

Lemma nth_error_alter_nth {A} (f : A -> A) (i : nat) (l : list A) (x : A) :
  nth_error l i = Some x -> nth_error (alter_nth f i l) i = Some (f x).
Proof.
  revert i; induction l as [|y l IH]; intros [|i]; simpl; try discriminate.
  - now intros [= ->].
  - apply IH.
Qed.

Lemma find_section_alter_nth (f : inisection -> inisection) n i l :
  (forall s, name (f s) = name s) ->
  find_section n (alter_nth f i l) = find_section n l.
Proof.
  intros Hf. revert i; induction l as [|y l IH]; intros [|i]; simpl;
    try reflexivity.
  - now rewrite Hf.
  - now rewrite IH.
Qed.

Lemma find_pair_alter_nth (f : inipair -> inipair) k i l :
  (forall p, key (f p) = key p) ->
  find_pair k (alter_nth f i l) = find_pair k l.
Proof.
  intros Hf. revert i; induction l as [|y l IH]; intros [|i]; simpl;
    try reflexivity.
  - now rewrite Hf.
  - now rewrite IH.
Qed.

Lemma map_alter_nth {A B} (g : A -> B) (f : A -> A) i l :
  (forall x, g (f x) = g x) -> map g (alter_nth f i l) = map g l.
Proof.
  intros Hf. revert i; induction l as [|y l IH]; intros [|i]; simpl;
    try reflexivity.
  - now rewrite Hf.
  - now rewrite IH.
Qed.

Lemma alter_nth_id {A} (f : A -> A) i l x :
  nth_error l i = Some x -> f x = x -> alter_nth f i l = l.
Proof.
  revert i; induction l as [|y l IH]; intros [|i]; simpl; try discriminate.
  - intros [= ->] ->. reflexivity.
  - intros H1 H2. now rewrite IH.
Qed.

Lemma ini_getsection_valid ini nm s :
  ini_getsection ini nm = Some s -> valid_sec ini s.
Proof.
  destruct nm as [n|]; simpl.
  - destruct (find_section n (ihead ini)) as [i|] eqn:E; [|discriminate].
    intros [= <-]. apply find_section_some in E as (x & E & _).
    simpl. congruence.
  - intros [= <-]. exact I.
Qed.

Lemma sec_head_set_sec_head ini s h :
  valid_sec ini s -> sec_head (set_sec_head ini s h) s = h.
Proof.
  destruct s as [|i]; simpl; [reflexivity|].
  destruct (nth_error (ihead ini) i) as [x|] eqn:E; [|congruence].
  intros _.
  now rewrite (nth_error_alter_nth _ _ _ _ E).
Qed.

Lemma ini_getsection_set_sec_head ini s h nm :
  ini_getsection (set_sec_head ini s h) nm = ini_getsection ini nm.
Proof.
  destruct nm as [n|]; [|reflexivity].
  destruct s as [|i]; simpl; [reflexivity|].
  now rewrite find_section_alter_nth.
Qed.

(** ** C5: [ini_put] *)

Lemma ini_put_existing ini section k v q :
  ini_getpair ini section (Some k) = Some q ->
  ini_put ini section (Some k) v = (ini, Some q).
Proof.
  unfold ini_getpair, ini_put.
  destruct (ini_getsection ini section) as [s|]; [|discriminate].
  destruct (inisection_getpair (sec_head ini s) (Some k)) as [i|];
    [|discriminate].
  now intros [= <-].
Qed.

(** The second half of [ini_put], once the section [s] is at hand and the key
    is not in it. *)
Lemma put_new_pair ini section s k v :
  ini_getsection ini section = Some s ->
  find_pair k (sec_head ini s) = None ->
  exists h i,
    pair_insert (sec_head ini s) (makepair (Some k) v) = (h, Some i)
    /\ ini_getpair (set_sec_head ini s h) section (Some k) = Some (s, i)
    /\ deref_pair (set_sec_head ini s h) (s, i)
       = Some {| key := k; val := v |}.
Proof.
  intros Hs Hk.
  destruct (pair_insert_fresh (sec_head ini s) {| key := k; val := v |} Hk)
    as (h & i & Hins & Hfind & Hnth).
  exists h, i. split; [exact Hins|].
  pose proof (ini_getsection_valid _ _ _ Hs) as Hv.
  unfold ini_getpair, deref_pair.
  rewrite ini_getsection_set_sec_head, Hs. simpl fst; simpl snd.
  rewrite (sec_head_set_sec_head _ _ _ Hv). simpl in Hfind |- *.
  rewrite Hfind. auto.
Qed.

(** C5. For every document, section name and key, [ini_put] returns a pair
    that the lookup of (section, key) then finds, so the section and the key
    exist afterwards.  If the key existed, the document is left as it was and
    the resident pair is returned; if it did not, the pair found has the given
    value.  A second [ini_put] on the same key, whatever its value, returns
    the same pair and leaves the document, hence the value, as the first call
    left it. *)
Theorem ini_put_spec (ini : inifile) (section : option cstring)
    (k : cstring) (v : option cstring) :
  exists p,
    snd (ini_put ini section (Some k) v) = Some p
    /\ ini_getsection (fst (ini_put ini section (Some k) v)) section
       = Some (fst p)
    /\ ini_getpair (fst (ini_put ini section (Some k) v)) section (Some k)
       = Some p
    /\ (forall q, ini_getpair ini section (Some k) = Some q ->
                  fst (ini_put ini section (Some k) v) = ini /\ p = q)
    /\ (ini_getpair ini section (Some k) = None ->
        deref_pair (fst (ini_put ini section (Some k) v)) p
        = Some {| key := k; val := v |})
    /\ (forall v2,
          ini_put (fst (ini_put ini section (Some k) v)) section (Some k) v2
          = (fst (ini_put ini section (Some k) v), Some p)).
Proof.
  assert (G : exists p,
    snd (ini_put ini section (Some k) v) = Some p
    /\ ini_getpair (fst (ini_put ini section (Some k) v)) section (Some k)
       = Some p
    /\ (forall q, ini_getpair ini section (Some k) = Some q ->
                  fst (ini_put ini section (Some k) v) = ini /\ p = q)
    /\ (ini_getpair ini section (Some k) = None ->
        deref_pair (fst (ini_put ini section (Some k) v)) p
        = Some {| key := k; val := v |})).
  { destruct (ini_getpair ini section (Some k)) as [q|] eqn:Hq.
    - rewrite (ini_put_existing _ _ _ v _ Hq). simpl.
      exists q. repeat split; try congruence.
    - unfold ini_getpair in Hq. unfold ini_put.
      destruct (ini_getsection ini section) as [s|] eqn:Hs.
      + simpl in Hq.
        destruct (find_pair k (sec_head ini s)) as [i|] eqn:Hk;
          [discriminate|].
        simpl inisection_getpair. rewrite Hk.
        destruct (put_new_pair ini section s k v Hs Hk)
          as (h & i & Hins & Hget & Hderef).
        rewrite Hins. simpl.
        exists (s, i). repeat split; auto; discriminate.
      + destruct section as [n|]; [|discriminate Hs].
        simpl in Hs.
        destruct (find_section n (ihead ini)) as [j|] eqn:Hn; [discriminate|].
        destruct (section_insert_fresh ini {| name := n; head := [] |} Hn)
          as (ini1 & j & Hins & Hfind & Hnth).
        simpl makesection. rewrite Hins. simpl option_map.
        simpl in Hfind.
        assert (Hs1 : ini_getsection ini1 (Some n) = Some (NamedSec j))
          by (simpl; now rewrite Hfind).
        assert (Hh : sec_head ini1 (NamedSec j) = [])
          by (simpl; now rewrite Hnth).
        assert (Hk : find_pair k (sec_head ini1 (NamedSec j)) = None)
          by now rewrite Hh.
        cbv iota beta. unfold inisection_getpair. rewrite Hk.
        destruct (put_new_pair ini1 (Some n) (NamedSec j) k v Hs1 Hk)
          as (h & i & Hins2 & Hget & Hderef).
        rewrite Hins2. simpl.
        exists (NamedSec j, i). repeat split; auto; discriminate. }
  destruct G as (p & Hret & Hget & Hold & Hnew).
  exists p. repeat split; auto.
  - unfold ini_getpair in Hget.
    destruct (ini_getsection (fst (ini_put ini section (Some k) v)) section)
      as [s|]; [|discriminate].
    destruct (inisection_getpair _ _); [|discriminate].
    simpl in Hget. now inversion Hget.
  - apply (Hold q H).
  - apply (Hold q H).
  - intros v2. now apply ini_put_existing.
Qed.

(** ** C6, C10: [ini_set] *)

Lemma pair_setval_eq (pr : inipair) (v : option cstring) :
  pair_setval pr v = ({| key := key pr; val := v |}, v).
Proof. destruct pr as [k [w|]], v as [v|]; reflexivity. Qed.

Lemma alter_nth_ext {A} (f g : A -> A) i l :
  (forall x, nth_error l i = Some x -> f x = g x) ->
  alter_nth f i l = alter_nth g i l.
Proof.
  revert i; induction l as [|y l IH]; intros [|i] H; simpl; try reflexivity.
  - now rewrite (H y eq_refl).
  - now rewrite (IH i H).
Qed.

Lemma map_alter_nth_at {A B} (g : A -> B) (f : A -> A) i l :
  (forall x, nth_error l i = Some x -> g (f x) = g x) ->
  map g (alter_nth f i l) = map g l.
Proof.
  revert i; induction l as [|y l IH]; intros [|i] H; simpl; try reflexivity.
  - now rewrite (H y eq_refl).
  - now rewrite (IH i H).
Qed.

Lemma skeleton_set_sec_head ini s h :
  map key h = map key (sec_head ini s) ->
  skeleton (set_sec_head ini s h) = skeleton ini.
Proof.
  unfold skeleton. destruct s as [|i]; simpl; intros H.
  - now rewrite H.
  - f_equal. apply map_alter_nth_at. intros x Hx. rewrite Hx in H.
    simpl. now rewrite H.
Qed.

(** What a successful lookup of (section, key) says about the document. *)
Lemma ini_getpair_some ini section k p :
  ini_getpair ini section k = Some p ->
  exists kk pr,
    k = Some kk
    /\ ini_getsection ini section = Some (fst p)
    /\ find_pair kk (sec_head ini (fst p)) = Some (snd p)
    /\ nth_error (sec_head ini (fst p)) (snd p) = Some pr
    /\ key pr = kk.
Proof.
  unfold ini_getpair.
  destruct (ini_getsection ini section) as [s|]; [|discriminate].
  destruct k as [kk|]; [|discriminate]. simpl.
  destruct (find_pair kk (sec_head ini s)) as [i|] eqn:E; [|discriminate].
  intros [= <-]. simpl.
  destruct (find_pair_some _ _ _ E) as (pr & Hn & Hk).
  exists kk, pr. auto.
Qed.

(** [ini_set] when the section and the key exist. *)
Lemma ini_set_found ini section k v p :
  ini_getpair ini section k = Some p ->
  exists pr,
    deref_pair ini p = Some pr
    /\ ini_set ini section k v
       = (set_sec_head ini (fst p)
            (alter_nth (fun q => {| key := key q; val := v |}) (snd p)
               (sec_head ini (fst p))),
          match v with Some _ => Some p | None => None end).
Proof.
  intros H.
  destruct (ini_getpair_some _ _ _ _ H) as (kk & pr & -> & Hs & Hf & Hn & Hk).
  exists pr. split; [exact Hn|].
  destruct p as [s i]. simpl in *.
  unfold ini_set. rewrite Hs. unfold inisection_getpair. rewrite Hf.
  cbv zeta. rewrite Hn.
  rewrite (alter_nth_ext (fun q => {| key := key q; val := v |})
             (fun _ => {| key := key pr; val := v |}))
    by (intros x Hx; congruence).
  destruct pr as [pk [pv|]], v as [v|]; reflexivity.
Qed.

Lemma ini_set_not_found ini section k v :
  ini_getpair ini section k = None ->
  ini_set ini section k v = (ini, None).
Proof.
  unfold ini_getpair, ini_set.
  destruct k as [kk|]; [|reflexivity].
  destruct (ini_getsection ini section) as [s|]; [|reflexivity].
  destruct (inisection_getpair (sec_head ini s) (Some kk)); [discriminate|].
  reflexivity.
Qed.

(** [ini_set] when the section and the key exist: the pair afterwards. *)
Lemma ini_set_found_effect ini section k v p :
  ini_getpair ini section k = Some p ->
  exists pr,
    deref_pair ini p = Some pr
    /\ deref_pair (fst (ini_set ini section k v)) p
       = Some {| key := key pr; val := v |}
    /\ ini_getpair (fst (ini_set ini section k v)) section k = Some p
    /\ snd (ini_set ini section k v)
       = match v with Some _ => Some p | None => None end
    /\ skeleton (fst (ini_set ini section k v)) = skeleton ini.
Proof.
  intros Hp.
  destruct (ini_set_found _ _ _ v _ Hp) as (pr & Hd & Hset).
  destruct (ini_getpair_some _ _ _ _ Hp) as (kk & pr' & -> & Hs & Hf & Hn & _).
  pose proof (ini_getsection_valid _ _ _ Hs) as Hv.
  rewrite Hset. simpl fst; simpl snd.
  exists pr. split; [exact Hd|].
  unfold deref_pair, ini_getpair.
  rewrite ini_getsection_set_sec_head, Hs.
  rewrite (sec_head_set_sec_head _ _ _ Hv).
  rewrite (nth_error_alter_nth _ _ _ _ Hd).
  unfold inisection_getpair.
  rewrite find_pair_alter_nth by reflexivity.
  rewrite Hf. destruct p. repeat split; auto.
  apply skeleton_set_sec_head. now apply map_alter_nth.
Qed.

(** C6. If the lookup of (section, key) finds nothing, [ini_set] returns the
    null pointer and the document is the one it was given.  If it finds a pair,
    that pair keeps its key and holds the given value afterwards, the lookup
    still finds it, and the pair is returned when the value is not null.  In
    both cases the sections and the keys of the document are the same before
    and after: nothing is created. *)
Theorem ini_set_spec (ini : inifile) (section k v : option cstring) :
  (ini_getpair ini section k = None ->
   ini_set ini section k v = (ini, None))
  /\ (forall p, ini_getpair ini section k = Some p ->
        exists pr,
          deref_pair ini p = Some pr
          /\ deref_pair (fst (ini_set ini section k v)) p
             = Some {| key := key pr; val := v |}
          /\ ini_getpair (fst (ini_set ini section k v)) section k = Some p
          /\ snd (ini_set ini section k v)
             = match v with Some _ => Some p | None => None end)
  /\ skeleton (fst (ini_set ini section k v)) = skeleton ini.
Proof.
  split; [apply ini_set_not_found|].
  destruct (ini_getpair ini section k) as [p|] eqn:Hp.
  - destruct (ini_set_found_effect _ _ _ v _ Hp)
      as (pr & Hd & Hd' & Hg & Hr & Hsk).
    split; [|exact Hsk].
    intros q [= <-]. exists pr. auto.
  - rewrite (ini_set_not_found _ _ _ v Hp). split; [|reflexivity].
    intros p [=].
Qed.

(** C10. When the section and the key exist, [ini_set] with a null value
    leaves the pair in place with no value and returns the null pointer; a
    document whose pair had a value is therefore changed by a call that
    reports failure, and the result is the one that any [ini_set] returns when
    the section or the key does not exist. *)
Theorem ini_set_null_clears_and_fails (ini : inifile)
    (section : option cstring) (k : cstring) (p : pairptr) :
  ini_getpair ini section (Some k) = Some p ->
  snd (ini_set ini section (Some k) None) = None
  /\ (exists pr,
        deref_pair ini p = Some pr
        /\ deref_pair (fst (ini_set ini section (Some k) None)) p
           = Some {| key := key pr; val := None |}
        /\ (val pr <> None -> fst (ini_set ini section (Some k) None) <> ini))
  /\ (forall ini2 section2 k2 v2,
        ini_getpair ini2 section2 k2 = None ->
        snd (ini_set ini2 section2 k2 v2)
        = snd (ini_set ini section (Some k) None)).
Proof.
  intros Hp.
  destruct (ini_set_found_effect _ _ _ None _ Hp)
    as (pr & Hd & Hd' & _ & Hret & _).
  split; [exact Hret|]. split.
  - exists pr. repeat split; auto.
    intros Hval Heq. rewrite Heq, Hd in Hd'.
    inversion Hd' as [E]. destruct pr as [kk vv]. simpl in *. congruence.
  - intros ini2 section2 k2 v2 H2.
    rewrite (ini_set_not_found _ _ _ v2 H2), Hret. reflexivity.
Qed.

Lemma ini_set_null_clears_and_fails_witness :
  let ini := {| ihead := [];
                default_section := [{| key := cs "k"; val := Some (cs "v") |}];
                flags := 0 |} in
  snd (ini_set ini None (Some (cs "k")) None) = None
  /\ (exists pr,
        deref_pair ini (DefaultSec, 0%nat) = Some pr
        /\ deref_pair (fst (ini_set ini None (Some (cs "k")) None))
             (DefaultSec, 0%nat)
           = Some {| key := key pr; val := None |}
        /\ (val pr <> None -> fst (ini_set ini None (Some (cs "k")) None) <> ini))
  /\ (forall ini2 section2 k2 v2,
        ini_getpair ini2 section2 k2 = None ->
        snd (ini_set ini2 section2 k2 v2)
        = snd (ini_set ini None (Some (cs "k")) None)).
Proof.
  exact (ini_set_null_clears_and_fails
           {| ihead := [];
              default_section := [{| key := cs "k"; val := Some (cs "v") |}];
              flags := 0 |}
           None (cs "k") (DefaultSec, 0%nat) eq_refl).
Defined.

(** ** C8: the writer *)

Lemma write_pairs_eq (fl : Z) (ps : list inipair) (out : cstring) :
  write_pairs fl ps out = out ++ concat (map (pair_line fl) ps).
Proof.
  unfold write_pairs.
  revert out; induction ps as [|p ps IH]; intros out; simpl.
  - now rewrite app_nil_r.
  - rewrite IH. unfold pair_line, fprintf.
    destruct (val p) as [v|]; [|destruct (has_flag fl INIO_ALLOW_EMPTY)];
      rewrite <- ?app_assoc; simpl; now rewrite <- ?app_assoc.
Qed.

Lemma write_sections_eq (fl : Z) (ss : list inisection) (out : cstring) :
  write_sections fl ss out = out ++ concat (map (section_block fl) ss).
Proof.
  unfold write_sections.
  revert out; induction ss as [|s ss IH]; intros out; simpl.
  - now rewrite app_nil_r.
  - rewrite IH. unfold section_block.
    destruct (head s) as [|p ps]; [reflexivity|].
    rewrite write_pairs_eq. unfold fprintf.
    rewrite <- ?app_assoc; simpl; now rewrite <- ?app_assoc.
Qed.

Lemma written_layout (ini : inifile) : written ini = layout ini.
Proof.
  unfold written, layout, fprintf.
  rewrite write_sections_eq, write_pairs_eq. simpl.
  now rewrite <- app_assoc.
Qed.

(** C8. What [writeinitofile] writes is the lines of the default section's
    pairs, a blank line, then the block of each named section in list order;
    a section without pairs contributes nothing, any other contributes its
    [[name]] line, the lines of its pairs and a blank line; a pair with a
    value gives [key=value], a pair without one gives [key=] when
    [INIO_ALLOW_EMPTY] is set and nothing otherwise.  When the path can be
    opened for writing the call returns 0 and the file holds exactly that. *)
Theorem writeinitofile_layout (ini : inifile) :
  written ini
  = concat (map (pair_line (flags ini)) (default_section ini))
    ++ [NL] ++ concat (map (section_block (flags ini)) (ihead ini))
  /\ (forall s, head s = [] -> section_block (flags ini) s = [])
  /\ (forall s, head s <> [] ->
        section_block (flags ini) s
        = [ch "["] ++ name s ++ [ch "]"] ++ [NL]
          ++ concat (map (pair_line (flags ini)) (head s)) ++ [NL])
  /\ (forall k v, pair_line (flags ini) {| key := k; val := Some v |}
                  = k ++ [ch "="] ++ v ++ [NL])
  /\ (forall k, pair_line (flags ini) {| key := k; val := None |}
                = if has_flag (flags ini) INIO_ALLOW_EMPTY
                  then k ++ [ch "="] ++ [NL] else [])
  /\ (forall fs fname,
        writeinitofile fs ini (Some fname)
        = if writable fs fname
          then (0%Z,
                {| lookup := fun f =>
                     if list_eq_dec ascii_dec f fname
                     then Some {| bytes := layout ini; fault := None |}
                     else lookup fs f;
                   writable := writable fs |})
          else (1%Z, fs)).
Proof.
  split; [apply written_layout|].
  split; [intros s H; unfold section_block; now rewrite H|].
  split; [intros s H; unfold section_block; destruct (head s); congruence|].
  split; [reflexivity|]. split; [reflexivity|].
  intros fs fname. unfold writeinitofile.
  now rewrite written_layout.
Qed.

(** ** Termination of the reading loop *)

Lemma fgets_read_progress (room : nat) (f : FILE) :
  let '(s, f') := fgets_read room f in
  length (unread f') + length s = length (unread f)
  /\ (room <> 0%nat -> s = [] -> eof_ind f' || err_ind f' = true).
Proof.
  revert f; induction room as [|room IH]; intros f; simpl.
  - split; [lia|congruence].
  - unfold fgetc.
    destruct (countdown f) as [[|n]|] eqn:Hc;
      destruct (unread f) as [|c rest] eqn:Hu; simpl;
      try (split; [lia| intros _ _; now rewrite ?orb_true_r]).
    + destruct (Ascii.eqb c NL).
      * simpl. split; [lia|discriminate].
      * match goal with |- context [fgets_read room ?g] =>
          specialize (IH g); destruct (fgets_read room g) as [s f'] end.
        simpl in *. split; [lia|discriminate].
    + destruct (Ascii.eqb c NL).
      * simpl. split; [lia|discriminate].
      * match goal with |- context [fgets_read room ?g] =>
          specialize (IH g); destruct (fgets_read room g) as [s f'] end.
        simpl in *. split; [lia|discriminate].
Qed.

Lemma fgets_remaining (f : FILE) :
  eof_ind f = false -> err_ind f = false ->
  (remaining (snd (fgets 512 f)) < remaining f)%nat.
Proof.
  intros He Hr. unfold fgets.
  pose proof (fgets_read_progress (512 - 1) f) as P.
  destruct (fgets_read (512 - 1) f) as [s f'].
  destruct P as [Plen Pnil].
  unfold remaining at 2. rewrite He, Hr. simpl orb. cbv iota.
  assert (Hs : s = [] -> remaining f' = 0%nat).
  { intros E. unfold remaining. rewrite Pnil; auto. discriminate. }
  assert (Hle : (remaining f' <= S (length (unread f')))%nat).
  { unfold remaining. destruct (eof_ind f' || err_ind f'); lia. }
  unfold ferror.
  destruct (err_ind f') eqn:Ee; simpl snd.
  - unfold remaining. rewrite Ee, orb_true_r. lia.
  - destruct s as [|c s]; simpl snd.
    + rewrite Hs by reflexivity. lia.
    + simpl in Plen. lia.
Qed.

(** With more fuel than [remaining] the loop reaches its exit. *)
Lemma load_loop_terminates (fuel : nat) (f : FILE) (st : parser) :
  (remaining f < fuel)%nat -> exists r, load_loop fuel f st = Some r.
Proof.
  revert f st; induction fuel as [|fuel IH]; intros f st H; [lia|].
  simpl. unfold feof, ferror.
  destruct (eof_ind f) eqn:He; simpl; [eauto|].
  destruct (err_ind f) eqn:Hr; simpl; [eauto|].
  pose proof (fgets_remaining f He Hr) as P.
  destruct (fgets 512 f) as [[tmpline|] f']; simpl in P; apply IH; lia.
Qed.

(** ** C9: the return value of [loadinifromfile] *)

Lemma fopen_r_unread fs fname f :
  fopen_r fs fname = Some f -> eof_ind f = false /\ err_ind f = false.
Proof.
  unfold fopen_r. destruct (lookup fs fname); [|discriminate].
  intros [= <-]. auto.
Qed.

(** C9, as the code has it.  Given a document, [loadinifromfile] always
    returns, with 0 or 1.  It returns 1 exactly when the file name is null or
    the file cannot be opened; once the file is open it returns 0 whatever
    the bytes are and whether or not a read fails on the way. *)
Theorem loadinifromfile_status (fs : filesystem) (ini : inifile)
    (filename : option cstring) :
  exists rv ini',
    loadinifromfile fs ini filename = Some (rv, ini')
    /\ (rv = 0 \/ rv = 1)%Z
    /\ (rv <> 0%Z <->
        filename = None
        \/ exists fname, filename = Some fname /\ fopen_r fs fname = None).
Proof.
  unfold loadinifromfile.
  destruct filename as [fname|].
  - destruct (fopen_r fs fname) as [infile|] eqn:Ho.
    + destruct (fopen_r_unread _ _ _ Ho) as [He Hr].
      destruct (load_loop_terminates (S (S (length (unread infile)))) infile
                  {| inif := ini; tmpsec := DefaultSec |}) as [[st f] Hl].
      { unfold remaining. rewrite He, Hr. simpl. lia. }
      rewrite Hl. exists 0%Z, (inif st).
      split; [reflexivity|]. split; [now left|].
      split; [congruence|].
      intros [H|(f' & H1 & H2)]; [discriminate|].
      inversion H1; subst. congruence.
    + exists 1%Z, ini. split; [reflexivity|]. split; [now right|].
      split; [|discriminate]. intros _. right. eauto.
  - exists 1%Z, ini. split; [reflexivity|]. split; [now right|].
    split; [|discriminate]. intros _. now left.
Qed.

(** C9 as stated fails: a file whose sixth byte cannot be read puts the stream
    in its error state in the middle of the second line, and the call returns
    0 with the first line only. *)
Lemma read_error_reports_success :
  let fs :=
    {| lookup := fun _ =>
         Some {| bytes := cs "a=1" ++ [NL] ++ cs "b=2" ++ [NL];
                 fault := Some 5%nat |};
       writable := fun _ => false |} in
  let start := {| inif := makeini 0; tmpsec := DefaultSec |} in
  (exists infile st f,
      fopen_r fs (cs "a.ini") = Some infile
      /\ load_loop 10 infile start = Some (st, f)
      /\ ferror f = true /\ feof f = false)
  /\ loadinifromfile fs (makeini 0) (Some (cs "a.ini"))
     = Some (0%Z,
             {| ihead := [];
                default_section := [{| key := cs "a"; val := Some (cs "1") |}];
                flags := 0 |}).
Proof.
  cbv zeta. split; [|reflexivity].
  eexists _, _, _. split; [reflexivity|]. split; [reflexivity|].
  split; reflexivity.
Qed.

(** ** The parser, line by line *)

(** The body of the loop does what the recognition of the line commands. *)
Lemma process_line_act (st : parser) (line : cstring) :
  process_line st line = act st (recognise (flags (inif st)) line).
Proof.
  unfold process_line, recognise, is_header, is_keyvalue, is_barekey,
    keyvalfmt.
  destruct (sscanf line fmt_section) as [r1 a1]. simpl fst; simpl snd.
  destruct (r1 =? 1)%Z.
  - simpl act. unfold enter_section. simpl makesection.
    destruct (section_insert (inif st) _) as [ini' [i|]]; reflexivity.
  - destruct (sscanf line
                (if has_flag (flags (inif st)) INIO_SPACE_AROUND_DELIM
                 then fmt_spaces else fmt_no_spaces)) as [r2 a2].
    simpl fst; simpl snd.
    destruct (r2 =? 2)%Z.
    + simpl act. unfold add_pair. simpl makepair.
      destruct (pair_insert _ _) as [h r]. reflexivity.
    + destruct (has_flag (flags (inif st)) INIO_ALLOW_EMPTY); [|reflexivity].
      destruct (sscanf line fmt_key) as [r3 a3]. simpl fst; simpl snd.
      destruct (r3 =? 1)%Z; [|reflexivity].
      simpl act. unfold add_pair. simpl makepair.
      destruct (pair_insert _ _) as [h r]. reflexivity.
Qed.

Lemma take_line_length (room : nat) (s : cstring) :
  length (fst (take_line room s)) + length (snd (take_line room s))
  = length s.
Proof.
  revert s; induction room as [|room IH]; intros [|c s]; simpl; try lia.
  destruct (Ascii.eqb c NL); simpl; [lia|].
  specialize (IH s). destruct (take_line room s) as [l r]. simpl in *. lia.
Qed.

Lemma take_line_nonempty (room : nat) (c : ascii) (s : cstring) :
  fst (take_line (S room) (c :: s)) <> [].
Proof.
  simpl. destruct (Ascii.eqb c NL); [discriminate|].
  destruct (take_line room s); discriminate.
Qed.

(** More fuel than bytes changes nothing. *)
Lemma lines_upto_enough (n m : nat) (s : cstring) :
  (length s <= n)%nat -> (length s <= m)%nat ->
  lines_upto n s = lines_upto m s.
Proof.
  revert m s; induction n as [|n IH]; intros m s Hn Hm.
  - destruct s; [|simpl in Hn; lia]. destruct m; reflexivity.
  - destruct s as [|c s]; [destruct m; reflexivity|].
    destruct m as [|m]; [simpl in Hm; lia|].
    cbn [lines_upto].
    pose proof (take_line_length 511 (c :: s)) as L.
    pose proof (take_line_nonempty 510 c s) as N.
    destruct (take_line 511 (c :: s)) as [l r]. simpl fst in *; simpl snd in *.
    f_equal. apply IH.
    + destruct l; [congruence|]. simpl in *. lia.
    + destruct l; [congruence|]. simpl in *. lia.
Qed.

Lemma file_lines_nil : file_lines [] = [].
Proof. reflexivity. Qed.

Lemma file_lines_cons (c : ascii) (s : cstring) :
  file_lines (c :: s)
  = fst (take_line 511 (c :: s)) :: file_lines (snd (take_line 511 (c :: s))).
Proof.
  unfold file_lines. cbn [length lines_upto].
  pose proof (take_line_length 511 (c :: s)) as L.
  pose proof (take_line_nonempty 510 c s) as N.
  destruct (take_line 511 (c :: s)) as [l r]. simpl fst in *; simpl snd in *.
  f_equal. apply lines_upto_enough; [|lia].
  destruct l; [congruence|]. simpl in *. lia.
Qed.

(** [fgets] on a stream that cannot fail takes what [take_line] says; the
    end-of-file indicator can only be raised when nothing is left. *)
Lemma fgets_read_take (room : nat) (s : cstring) :
  exists e,
    fgets_read room
      {| unread := s; countdown := None; eof_ind := false; err_ind := false |}
    = (fst (take_line room s),
       {| unread := snd (take_line room s); countdown := None; eof_ind := e;
          err_ind := false |})
    /\ (e = true -> snd (take_line room s) = []).
Proof.
  revert s; induction room as [|room IH]; intros s.
  - exists false. destruct s; simpl; split; auto; discriminate.
  - destruct s as [|c s].
    + exists true. simpl. auto.
    + cbn [fgets_read take_line]. unfold fgetc. simpl.
      destruct (Ascii.eqb c NL).
      * exists false. simpl. split; [reflexivity|discriminate].
      * destruct (IH s) as (e & E & He). rewrite E.
        exists e. destruct (take_line room s) as [l r]. simpl in *. auto.
Qed.

(** On a stream that cannot fail the loop is the fold of [process_line] over
    the lines of the file. *)
Lemma load_loop_run (fuel : nat) (s : cstring) (e : bool) (st : parser) :
  (length s + 2 <= fuel)%nat -> (e = true -> s = []) ->
  exists f,
    load_loop fuel
      {| unread := s; countdown := None; eof_ind := e; err_ind := false |} st
    = Some (run st s, f).
Proof.
  revert s e st; induction fuel as [|fuel IH]; intros s e st Hf He; [lia|].
  cbn [load_loop]. unfold feof, ferror. cbn [eof_ind err_ind].
  destruct e.
  - rewrite (He eq_refl). simpl. eauto.
  - simpl negb. simpl andb.
    destruct s as [|c s].
    + destruct fuel as [|fuel]; [simpl in Hf; lia|]. simpl. eauto.
    + unfold fgets.
      destruct (fgets_read_take (512 - 1) (c :: s)) as (e' & E & He').
      rewrite E. unfold ferror. cbn [err_ind].
      pose proof (take_line_nonempty 510 c s) as N.
      pose proof (take_line_length 511 (c :: s)) as L.
      unfold run. rewrite file_lines_cons.
      change (512 - 1)%nat with 511%nat in *.
      destruct (take_line 511 (c :: s)) as [l r].
      simpl fst in *; simpl snd in *.
      destruct l as [|x l]; [congruence|].
      destruct (IH r e' (process_line st (c_str (x :: l)))) as (f & Hl).
      * simpl in *. lia.
      * exact He'.
      * rewrite Hl. eauto.
Qed.

Lemma loadinifromfile_run fs ini fname content :
  lookup fs fname = Some {| bytes := content; fault := None |} ->
  loadinifromfile fs ini (Some fname)
  = Some (0%Z, inif (run {| inif := ini; tmpsec := DefaultSec |} content)).
Proof.
  intros H. unfold loadinifromfile, fopen_r. rewrite H. cbn [bytes fault unread].
  destruct (load_loop_run (S (S (length content))) content false
              {| inif := ini; tmpsec := DefaultSec |}) as (f & Hl);
    [lia|discriminate|].
  rewrite Hl. reflexivity.
Qed.

(** ** C7: priority of the recognitions *)


(** ** Scanning the lines that the writer produces *)

Lemma excludes_In (l : list ascii) (c : ascii) :
  excludes l c = true <-> In c l.
Proof.
  unfold excludes. rewrite existsb_exists. split.
  - intros (x & Hx & E). apply Ascii.eqb_eq in E. now subst.
  - intros H. exists c. split; [exact H|apply Ascii.eqb_refl].
Qed.

Lemma free_of_app (bad : list ascii) (a b : cstring) :
  free_of bad (a ++ b) = free_of bad a && free_of bad b.
Proof. apply forallb_app. Qed.

Lemma free_of_incl (small big : list ascii) (s : cstring) :
  incl small big -> free_of big s = true -> free_of small s = true.
Proof.
  unfold free_of. rewrite !forallb_forall. intros Hi H c Hc.
  specialize (H c Hc). rewrite negb_true_iff in *.
  destruct (excludes small c) eqn:E; [|reflexivity].
  apply excludes_In in E. apply Hi in E. apply excludes_In in E. congruence.
Qed.

Lemma c_str_id (s : cstring) : free_of [NUL] s = true -> c_str s = s.
Proof.
  induction s as [|c s IH]; simpl; [reflexivity|].
  unfold excludes. simpl. rewrite orb_false_r.
  destruct (Ascii.eqb c NUL); simpl; [discriminate|].
  intros H. now rewrite IH.
Qed.

Lemma skip_space_id (c : ascii) (s : cstring) :
  isspace c = false -> skip_space (c :: s) = c :: s.
Proof. intros H. simpl. now rewrite H. Qed.

Lemma scanset_app (w : nat) (ex : list ascii) (tok rest : cstring) :
  free_of ex tok = true -> (length tok <= w)%nat ->
  match rest with
  | [] => True
  | c :: _ => excludes ex c = true
  end ->
  scanset w ex (tok ++ rest) = (tok, rest).
Proof.
  revert w; induction tok as [|c tok IH]; intros w Hf Hl Hr.
  - simpl. destruct w, rest as [|d rest]; try reflexivity.
    simpl. now rewrite Hr.
  - destruct w as [|w]; [simpl in Hl; lia|].
    simpl in Hf. apply andb_true_iff in Hf as [Hc Hf].
    apply negb_true_iff in Hc.
    simpl. rewrite Hc, IH; auto. simpl in Hl. lia.
Qed.

Lemma step_char (c : ascii) fmt (s : cstring) args :
  sscanf_from (Char c :: fmt) (c :: s) args = sscanf_from fmt s args.
Proof. simpl. now rewrite Ascii.eqb_refl. Qed.

Lemma step_notin (w : nat) (ex : list ascii) fmt (c : ascii)
    (tok rest : cstring) args :
  free_of ex (c :: tok) = true -> (length (c :: tok) <= w)%nat ->
  match rest with
  | [] => True
  | d :: _ => excludes ex d = true
  end ->
  sscanf_from (NotIn w ex :: fmt) ((c :: tok) ++ rest) args
  = sscanf_from fmt rest (args ++ [c :: tok]).
Proof.
  intros Hf Hl Hr.
  change (sscanf_from (NotIn w ex :: fmt) ((c :: tok) ++ rest) args)
    with (match scanset w ex ((c :: tok) ++ rest) with
          | ([], _) => (Z.of_nat (length args), args)
          | (t, r) => sscanf_from fmt r (args ++ [t])
          end).
  now rewrite scanset_app.
Qed.

(** A white-space directive skips the white space ahead. *)
Ltac scan_space :=
  change (sscanf_from (Space :: ?f) ?s ?a)
    with (sscanf_from f (skip_space s) a).

(** The goal [incl small big] on explicit sets of characters. *)
Ltac sub_set := intros ? ?; simpl in *; tauto.

(** What [key_ok], [value_ok] and [name_ok] give. *)
Lemma key_ok_inv (k : cstring) :
  key_ok k = true ->
  exists c k',
    k = c :: k' /\ isspace c = false /\ Ascii.eqb c (ch "[") = false
    /\ (length k < 256)%nat
    /\ free_of [NUL; NL; ch "="; ch ";"; ch " "] k = true.
Proof.
  unfold key_ok, fits. destruct k as [|c k']; intros H.
  - now rewrite andb_false_r in H.
  - apply andb_true_iff in H as [H Hfirst].
    apply andb_true_iff in H as [H Hfree].
    apply andb_true_iff in H as [_ Hlen].
    apply andb_true_iff in Hfirst as [Hs Hb].
    apply negb_true_iff in Hs, Hb. apply Nat.ltb_lt in Hlen.
    exists c, k'. auto.
Qed.

Lemma name_ok_inv (n : cstring) :
  name_ok n = true ->
  exists c n',
    n = c :: n' /\ (length n < 256)%nat
    /\ free_of [NUL; NL; ch "]"] n = true.
Proof.
  unfold name_ok, fits. intros H.
  apply andb_true_iff in H as [H Hfree].
  apply andb_true_iff in H as [Hne Hlen].
  apply Nat.ltb_lt in Hlen. apply Nat.leb_le in Hne.
  destruct n as [|c n']; [simpl in Hne; lia|]. exists c, n'. auto.
Qed.

Lemma value_ok_inv (fl : Z) (v : cstring) :
  value_ok fl v = true ->
  exists c v',
    v = c :: v' /\ (length v < 256)%nat
    /\ free_of [NUL; NL] v = true
    /\ (if has_flag fl INIO_SPACE_AROUND_DELIM
        then isspace c = false
        else free_of [ch " "] v = true).
Proof.
  unfold value_ok, fits. intros H.
  apply andb_true_iff in H as [H Hmode].
  apply andb_true_iff in H as [H Hfree].
  apply andb_true_iff in H as [Hne Hlen].
  apply Nat.ltb_lt in Hlen. apply Nat.leb_le in Hne.
  destruct v as [|c v']; [simpl in Hne; lia|]. exists c, v'.
  repeat split; auto.
  destruct (has_flag fl INIO_SPACE_AROUND_DELIM); auto.
  now apply negb_true_iff.
Qed.

(** A line that begins with a key is not a section header. *)
Lemma key_line_not_header (k rest : cstring) :
  key_ok k = true -> is_header (k ++ rest) = false.
Proof.
  intros H. destruct (key_ok_inv k H) as (c & k' & -> & Hs & Hb & _).
  unfold is_header, sscanf, fmt_section. cbn [sscanf_from app].
  rewrite (skip_space_id _ _ Hs), Hb. reflexivity.
Qed.

(** The pair format on [key=value], with or without the final newline. *)
Lemma scan_keyvalue (fl : Z) (k v t : cstring) :
  key_ok k = true -> value_ok fl v = true -> t = [] \/ t = [NL] ->
  sscanf (k ++ ch "=" :: v ++ t) (keyvalfmt fl) = (2%Z, [k; v]).
Proof.
  intros Hk Hv Ht.
  destruct (key_ok_inv k Hk) as (c & k' & -> & Hs & _ & Hlen & Hfree).
  destruct (value_ok_inv fl v Hv) as (d & v' & -> & Hvlen & Hvfree & Hmode).
  assert (Hkey : free_of [ch "="; ch ";"; ch " "] (c :: k') = true).
  { revert Hfree. apply free_of_incl.
    sub_set. }
  assert (Hend : match t with
                 | [] => True
                 | e :: _ => e = NL
                 end) by (destruct Ht; subst; simpl; auto).
  unfold keyvalfmt, sscanf.
  destruct (has_flag fl INIO_SPACE_AROUND_DELIM).
  - unfold fmt_spaces.
    scan_space.
    change ((c :: k') ++ ch "=" :: (d :: v') ++ t)
      with (c :: (k' ++ ch "=" :: (d :: v') ++ t)).
    rewrite (skip_space_id _ _ Hs).
    change (c :: (k' ++ ch "=" :: (d :: v') ++ t))
      with ((c :: k') ++ ch "=" :: (d :: v') ++ t).
    rewrite step_notin; [|exact Hkey|lia|reflexivity].
    scan_space.
    rewrite (skip_space_id (ch "=")) by reflexivity.
    rewrite step_char.
    scan_space.
    change ((d :: v') ++ t) with (d :: (v' ++ t)).
    rewrite (skip_space_id _ _ Hmode).
    change (d :: (v' ++ t)) with ((d :: v') ++ t).
    rewrite step_notin.
    + destruct Ht; subst; reflexivity.
    + revert Hvfree. apply free_of_incl. sub_set.
    + lia.
    + destruct t; [exact I|]. now subst.
  - unfold fmt_no_spaces.
    scan_space.
    change ((c :: k') ++ ch "=" :: (d :: v') ++ t)
      with (c :: (k' ++ ch "=" :: (d :: v') ++ t)).
    rewrite (skip_space_id _ _ Hs).
    change (c :: (k' ++ ch "=" :: (d :: v') ++ t))
      with ((c :: k') ++ ch "=" :: (d :: v') ++ t).
    rewrite step_notin; [|exact Hkey|lia|reflexivity].
    rewrite step_char.
    rewrite step_notin.
    + destruct Ht; subst; reflexivity.
    + unfold free_of in *. rewrite forallb_forall in *.
      intros x Hx. specialize (Hvfree x Hx). specialize (Hmode x Hx).
      rewrite negb_true_iff in *. unfold excludes in *. simpl in *.
      rewrite !orb_false_r in *.
      apply orb_false_iff in Hvfree as [_ Hnl].
      now rewrite Hmode, Hnl.
    + lia.
    + destruct t; [exact I|]. now subst.
Qed.

(** The pair format on [key=] followed by the newline: only the key is
    assigned. *)
Lemma scan_no_value (fl : Z) (k : cstring) :
  key_ok k = true ->
  is_keyvalue fl (k ++ [ch "="; NL]) = false.
Proof.
  intros Hk.
  destruct (key_ok_inv k Hk) as (c & k' & -> & Hs & _ & Hlen & Hfree).
  assert (Hkey : free_of [ch "="; ch ";"; ch " "] (c :: k') = true).
  { revert Hfree. apply free_of_incl.
    sub_set. }
  unfold is_keyvalue, keyvalfmt, sscanf.
  destruct (has_flag fl INIO_SPACE_AROUND_DELIM).
  - unfold fmt_spaces.
    scan_space.
    change ((c :: k') ++ [ch "="; NL]) with (c :: (k' ++ [ch "="; NL])).
    rewrite (skip_space_id _ _ Hs).
    change (c :: (k' ++ [ch "="; NL])) with ((c :: k') ++ [ch "="; NL]).
    rewrite step_notin; [|exact Hkey|lia|reflexivity].
    reflexivity.
  - unfold fmt_no_spaces.
    scan_space.
    change ((c :: k') ++ [ch "="; NL]) with (c :: (k' ++ [ch "="; NL])).
    rewrite (skip_space_id _ _ Hs).
    change (c :: (k' ++ [ch "="; NL])) with ((c :: k') ++ [ch "="; NL]).
    rewrite step_notin; [|exact Hkey|lia|reflexivity].
    reflexivity.
Qed.

(** The key format on a line that begins with a key and [=]. *)
Lemma scan_barekey (k rest : cstring) :
  key_ok k = true ->
  sscanf (k ++ ch "=" :: rest) fmt_key = (1%Z, [k]).
Proof.
  intros Hk.
  destruct (key_ok_inv k Hk) as (c & k' & -> & Hs & _ & Hlen & Hfree).
  assert (Hkey : free_of [ch "="; ch ";"; ch " "] (c :: k') = true).
  { revert Hfree. apply free_of_incl.
    sub_set. }
  unfold sscanf, fmt_key.
  scan_space.
  change ((c :: k') ++ ch "=" :: rest) with (c :: (k' ++ ch "=" :: rest)).
  rewrite (skip_space_id _ _ Hs).
  change (c :: (k' ++ ch "=" :: rest)) with ((c :: k') ++ ch "=" :: rest).
  rewrite step_notin; [|exact Hkey|lia|reflexivity].
  reflexivity.
Qed.

(** The section format on [[name]] and what follows. *)
Lemma scan_header (n rest : cstring) :
  name_ok n = true ->
  sscanf (ch "[" :: n ++ ch "]" :: rest) fmt_section = (1%Z, [n]).
Proof.
  intros Hn.
  destruct (name_ok_inv n Hn) as (c & n' & -> & Hlen & Hfree).
  unfold sscanf, fmt_section.
  scan_space.
  rewrite (skip_space_id (ch "[")) by reflexivity.
  rewrite step_char.
  rewrite step_notin.
  - rewrite step_char. reflexivity.
  - revert Hfree. apply free_of_incl. sub_set.
  - lia.
  - reflexivity.
Qed.

(** ** What the lines of the writer are recognised as *)

Lemma recognise_keyvalue (fl : Z) (k v t : cstring) :
  key_ok k = true -> value_ok fl v = true -> t = [] \/ t = [NL] ->
  recognise fl (k ++ ch "=" :: v ++ t) = KeyValue k v.
Proof.
  intros Hk Hv Ht. unfold recognise.
  rewrite (key_line_not_header k _ Hk).
  unfold is_keyvalue. rewrite (scan_keyvalue fl k v t Hk Hv Ht).
  reflexivity.
Qed.

Lemma recognise_barekey (fl : Z) (k : cstring) :
  key_ok k = true -> has_flag fl INIO_ALLOW_EMPTY = true ->
  recognise fl (k ++ [ch "="; NL]) = BareKey k.
Proof.
  intros Hk Hf. unfold recognise.
  rewrite (key_line_not_header k _ Hk), (scan_no_value fl k Hk), Hf.
  unfold is_barekey. rewrite (scan_barekey k [NL] Hk). reflexivity.
Qed.

Lemma recognise_header (fl : Z) (n : cstring) :
  name_ok n = true ->
  recognise fl (ch "[" :: n ++ [ch "]"; NL]) = Header n.
Proof.
  intros Hn. unfold recognise, is_header.
  rewrite (scan_header n [NL] Hn). reflexivity.
Qed.

Lemma recognise_blank (fl : Z) : recognise fl [NL] = Ignored.
Proof.
  unfold recognise, is_keyvalue, keyvalfmt.
  destruct (has_flag fl INIO_SPACE_AROUND_DELIM),
    (has_flag fl INIO_ALLOW_EMPTY); reflexivity.
Qed.

(** ** The lines of a file that was written line by line *)

Lemma take_line_nl (room : nat) (body rest : cstring) :
  free_of [NL] body = true -> (length body < room)%nat ->
  take_line room (body ++ NL :: rest) = (body ++ [NL], rest).
Proof.
  revert room; induction body as [|c body IH]; intros room Hf Hl.
  - destruct room; [lia|]. reflexivity.
  - destruct room as [|room]; [simpl in Hl; lia|].
    simpl in Hf. apply andb_true_iff in Hf as [Hc Hf].
    unfold excludes in Hc. simpl in Hc. rewrite orb_false_r in Hc.
    apply negb_true_iff in Hc.
    simpl. rewrite Hc, IH; auto. simpl in Hl. lia.
Qed.

Lemma take_line_full (body rest : cstring) :
  free_of [NL] body = true ->
  take_line (length body) (body ++ rest) = (body, rest).
Proof.
  induction body as [|c body IH]; intros Hf; [reflexivity|].
  simpl in Hf. apply andb_true_iff in Hf as [Hc Hf].
  unfold excludes in Hc. simpl in Hc. rewrite orb_false_r in Hc.
  apply negb_true_iff in Hc.
  simpl. now rewrite Hc, IH.
Qed.

Lemma file_lines_step (s : cstring) :
  s <> [] ->
  file_lines s
  = fst (take_line 511 s) :: file_lines (snd (take_line 511 s)).
Proof. destruct s; [congruence|]. intros _. apply file_lines_cons. Qed.

Lemma run_step (st : parser) (s : cstring) :
  s <> [] ->
  run st s
  = run (process_line st (c_str (fst (take_line 511 s))))
      (snd (take_line 511 s)).
Proof. intros H. unfold run. now rewrite (file_lines_step s H). Qed.

(** A blank line changes nothing. *)
Lemma run_blank (st : parser) (rest : cstring) :
  run st (NL :: rest) = run st rest.
Proof.
  rewrite run_step by discriminate.
  change (take_line 511 (NL :: rest)) with ([NL], rest).
  cbn [fst snd]. change (c_str [NL]) with [NL].
  now rewrite process_line_act, recognise_blank.
Qed.

(** A line of at most 511 characters before its newline is processed whole,
    with its newline or, when it fills the buffer, without it and followed by
    a blank line. *)
Lemma run_line (st st' : parser) (body rest : cstring) :
  free_of [NUL; NL] body = true -> (length body <= 511)%nat ->
  (forall t, t = [] \/ t = [NL] -> process_line st (body ++ t) = st') ->
  run st (body ++ NL :: rest) = run st' rest.
Proof.
  intros Hf Hl Hp.
  assert (Hnl : free_of [NL] body = true).
  { revert Hf. apply free_of_incl. sub_set. }
  assert (Hnul : free_of [NUL] body = true).
  { revert Hf. apply free_of_incl. sub_set. }
  rewrite run_step by (destruct body; discriminate).
  destruct (Nat.eq_dec (length body) 511) as [E|E].
  - rewrite <- E at 1 2. rewrite take_line_full by exact Hnl.
    cbn [fst snd]. rewrite (c_str_id _ Hnul).
    rewrite <- (app_nil_r body) at 1. rewrite (Hp [] (or_introl eq_refl)).
    apply run_blank.
  - rewrite take_line_nl by (auto; lia).
    cbn [fst snd]. rewrite c_str_id.
    + now rewrite (Hp [NL] (or_intror eq_refl)).
    + rewrite free_of_app, Hnul. reflexivity.
Qed.

Lemma run_keyvalue_line (st : parser) (k v rest : cstring) :
  key_ok k = true -> value_ok (flags (inif st)) v = true ->
  run st (k ++ ch "=" :: v ++ NL :: rest) = run (add_pair st k (Some v)) rest.
Proof.
  intros Hk Hv.
  destruct (key_ok_inv k Hk) as (c & k' & Ek & _ & _ & Hlen & Hfree).
  destruct (value_ok_inv _ v Hv) as (d & v' & Ev & Hvlen & Hvfree & _).
  change (k ++ ch "=" :: v ++ NL :: rest)
    with (k ++ [ch "="] ++ v ++ NL :: rest).
  rewrite !app_assoc. rewrite <- (app_assoc k).
  apply run_line.
  - rewrite !free_of_app, Hvfree.
    rewrite (free_of_incl [NUL; NL] [NUL; NL; ch "="; ch ";"; ch " "] k) by
      (auto; sub_set).
    reflexivity.
  - rewrite !length_app. simpl. lia.
  - intros t Ht. rewrite process_line_act.
    rewrite <- !app_assoc.
    change (k ++ [ch "="] ++ v ++ t) with (k ++ ch "=" :: v ++ t).
    now rewrite recognise_keyvalue.
Qed.

Lemma run_barekey_line (st : parser) (k rest : cstring) :
  key_ok k = true -> has_flag (flags (inif st)) INIO_ALLOW_EMPTY = true ->
  run st (k ++ ch "=" :: NL :: rest) = run (add_pair st k None) rest.
Proof.
  intros Hk Hf.
  destruct (key_ok_inv k Hk) as (c & k' & Ek & _ & _ & Hlen & Hfree).
  assert (Hnl : free_of [NL] (k ++ [ch "="]) = true).
  { rewrite free_of_app.
    rewrite (free_of_incl [NL] [NUL; NL; ch "="; ch ";"; ch " "] k) by
      (auto; sub_set).
    reflexivity. }
  assert (Hnul : free_of [NUL] (k ++ [ch "="; NL]) = true).
  { rewrite free_of_app.
    rewrite (free_of_incl [NUL] [NUL; NL; ch "="; ch ";"; ch " "] k) by
      (auto; sub_set).
    reflexivity. }
  rewrite run_step by (rewrite Ek; discriminate).
  change (k ++ ch "=" :: NL :: rest) with (k ++ [ch "="] ++ NL :: rest).
  rewrite app_assoc.
  rewrite take_line_nl by (auto; rewrite length_app; simpl; lia).
  cbn [fst snd]. rewrite <- app_assoc.
  change ([ch "="] ++ [NL]) with [ch "="; NL].
  rewrite (c_str_id _ Hnul), process_line_act.
  now rewrite recognise_barekey.
Qed.

Lemma run_header_line (st : parser) (n rest : cstring) :
  name_ok n = true ->
  run st (ch "[" :: n ++ ch "]" :: NL :: rest) = run (enter_section st n) rest.
Proof.
  intros Hn.
  destruct (name_ok_inv n Hn) as (c & n' & En & Hlen & Hfree).
  assert (Hnl : free_of [NL] (ch "[" :: n ++ [ch "]"]) = true).
  { change (ch "[" :: n ++ [ch "]"]) with ([ch "["] ++ n ++ [ch "]"]).
    rewrite !free_of_app.
    rewrite (free_of_incl [NL] [NUL; NL; ch "]"] n) by
      (auto; sub_set).
    reflexivity. }
  assert (Hnul : free_of [NUL] (ch "[" :: n ++ [ch "]"; NL]) = true).
  { change (ch "[" :: n ++ [ch "]"; NL]) with ([ch "["] ++ n ++ [ch "]"; NL]).
    rewrite !free_of_app.
    rewrite (free_of_incl [NUL] [NUL; NL; ch "]"] n) by
      (auto; sub_set).
    reflexivity. }
  rewrite run_step by discriminate.
  replace (ch "[" :: n ++ ch "]" :: NL :: rest)
    with ((ch "[" :: n ++ [ch "]"]) ++ NL :: rest)
    by (simpl; now rewrite <- app_assoc).
  rewrite take_line_nl by (auto; simpl; rewrite length_app; simpl; lia).
  cbn [fst snd].
  replace ((ch "[" :: n ++ [ch "]"]) ++ [NL])
    with (ch "[" :: n ++ [ch "]"; NL])
    by (simpl; now rewrite <- app_assoc).
  rewrite (c_str_id _ Hnul), process_line_act.
  now rewrite recognise_header.
Qed.

(** ** Ascending lists *)

Lemma ascending_cons_inv (a : cstring) (l : list cstring) :
  ascending (a :: l) = true ->
  ascending l = true /\ Forall (fun b => strcmp a b = Lt) l.
Proof.
  revert a; induction l as [|b l IH]; intros a H; [auto|].
  cbn [ascending] in H.
  destruct (strcmp a b) eqn:E; try discriminate.
  split; [exact H|].
  destruct (IH b H) as [_ Hb].
  constructor; [exact E|].
  eapply Forall_impl; [|exact Hb].
  intros x Hx. eapply strcmp_lt_trans; eassumption.
Qed.

(** ** Updates of the section under the cursor *)

Lemma alter_nth_twice {A} (f g : A -> A) i l :
  alter_nth f i (alter_nth g i l) = alter_nth (fun x => f (g x)) i l.
Proof.
  revert i; induction l as [|y l IH]; intros [|i]; simpl; try reflexivity.
  now rewrite IH.
Qed.

Lemma set_sec_head_twice ini s h1 h2 :
  set_sec_head (set_sec_head ini s h1) s h2 = set_sec_head ini s h2.
Proof.
  destruct s as [|i]; simpl; [reflexivity|].
  now rewrite alter_nth_twice.
Qed.

Lemma set_sec_head_same ini s :
  set_sec_head ini s (sec_head ini s) = ini.
Proof.
  destruct ini as [l d fl], s as [|i]; simpl; [reflexivity|].
  f_equal.
  destruct (nth_error l i) as [x|] eqn:E.
  - apply (alter_nth_id _ _ _ x E). now destruct x.
  - clear -E. revert i E; induction l as [|y l IH]; intros [|i] E; simpl in *;
      try reflexivity; try discriminate.
    now rewrite IH.
Qed.

Lemma valid_sec_set_sec_head ini s h :
  valid_sec ini s -> valid_sec (set_sec_head ini s h) s.
Proof.
  destruct s as [|i]; simpl; [auto|].
  destruct (nth_error (ihead ini) i) as [x|] eqn:E; [|congruence].
  intros _. rewrite (nth_error_alter_nth _ _ _ _ E). discriminate.
Qed.

Lemma flags_set_sec_head ini s h : flags (set_sec_head ini s h) = flags ini.
Proof. destruct s; reflexivity. Qed.

Lemma alter_nth_last {A} (f : A -> A) (l : list A) (x : A) :
  alter_nth f (length l) (l ++ [x]) = l ++ [f x].
Proof. induction l as [|y l IH]; simpl; [reflexivity|now rewrite IH]. Qed.

Lemma nth_error_last {A} (l : list A) (x : A) :
  nth_error (l ++ [x]) (length l) = Some x.
Proof. induction l as [|y l IH]; simpl; auto. Qed.

(** ** Parsing back the pairs of one section *)

Lemma add_pair_append (st : parser) (p : inipair) :
  Forall (fun q => key_lt q p) (sec_head (inif st) (tmpsec st)) ->
  add_pair st (key p) (val p)
  = {| inif := set_sec_head (inif st) (tmpsec st)
                 (sec_head (inif st) (tmpsec st) ++ [p]);
       tmpsec := tmpsec st |}.
Proof.
  intros H. unfold add_pair.
  replace {| key := key p; val := val p |} with p by now destruct p.
  now rewrite pair_insert_append.
Qed.

Lemma run_pair_line (st : parser) (p : inipair) (rest : cstring) :
  pair_ok (flags (inif st)) p = true ->
  run st (pair_line (flags (inif st)) p ++ rest)
  = run (add_pair st (key p) (val p)) rest.
Proof.
  unfold pair_ok, pair_line. intros H.
  apply andb_true_iff in H as [Hk Hv].
  destruct (val p) as [v|].
  - rewrite <- (run_keyvalue_line st (key p) v rest Hk Hv).
    f_equal. rewrite <- !app_assoc. reflexivity.
  - rewrite Hv, <- (run_barekey_line st (key p) rest Hk Hv).
    f_equal. rewrite <- !app_assoc. reflexivity.
Qed.

Lemma run_pairs (ps : list inipair) :
  forall (st : parser) (rest : cstring),
    valid_sec (inif st) (tmpsec st) ->
    forallb (pair_ok (flags (inif st))) ps = true ->
    ascending (map key ps) = true ->
    (forall a b, In a (sec_head (inif st) (tmpsec st)) -> In b ps ->
                 key_lt a b) ->
    run st (concat (map (pair_line (flags (inif st))) ps) ++ rest)
    = run {| inif := set_sec_head (inif st) (tmpsec st)
                       (sec_head (inif st) (tmpsec st) ++ ps);
             tmpsec := tmpsec st |} rest.
Proof.
  induction ps as [|p ps IH]; intros st rest Hv Hok Hasc Hlt.
  - simpl. rewrite app_nil_r, set_sec_head_same. now destruct st.
  - simpl in Hok. apply andb_true_iff in Hok as [Hp Hok].
    simpl map in Hasc. apply ascending_cons_inv in Hasc as [Hasc Hfirst].
    cbn [map concat]. rewrite <- app_assoc.
    rewrite (run_pair_line st p _ Hp).
    rewrite add_pair_append.
    2:{ apply Forall_forall. intros q Hq. apply Hlt; [exact Hq|now left]. }
    set (st1 := {| inif := set_sec_head (inif st) (tmpsec st)
                             (sec_head (inif st) (tmpsec st) ++ [p]);
                   tmpsec := tmpsec st |}).
    assert (Hfl : flags (inif st1) = flags (inif st))
      by apply flags_set_sec_head.
    assert (Hh : sec_head (inif st1) (tmpsec st1)
                 = sec_head (inif st) (tmpsec st) ++ [p])
      by (apply sec_head_set_sec_head; exact Hv).
    rewrite <- Hfl. rewrite (IH st1 rest).
    + rewrite Hh. unfold st1. cbn [inif tmpsec].
      rewrite set_sec_head_twice, <- app_assoc. reflexivity.
    + apply valid_sec_set_sec_head. exact Hv.
    + now rewrite Hfl.
    + exact Hasc.
    + rewrite Hh. intros a b Ha Hb. apply in_app_or in Ha as [Ha|[<-|[]]].
      * apply Hlt; [exact Ha|now right].
      * rewrite Forall_forall in Hfirst. unfold key_lt.
        apply Hfirst. now apply in_map.
Qed.

(** ** Parsing back the named sections *)

Lemma enter_section_append (st : parser) (n : cstring) :
  Forall (fun t => strcmp (name t) n = Lt) (ihead (inif st)) ->
  enter_section st n
  = {| inif := {| ihead := ihead (inif st) ++ [{| name := n; head := [] |}];
                  default_section := default_section (inif st);
                  flags := flags (inif st) |};
       tmpsec := NamedSec (length (ihead (inif st))) |}.
Proof.
  intros H. unfold enter_section.
  now rewrite section_insert_append.
Qed.

(** One block of the writer read back: the section is appended with its
    pairs. *)
Lemma run_section_block (st : parser) (s : inisection) (rest : cstring) :
  section_ok (flags (inif st)) s = true ->
  has_pairs s = true ->
  Forall (fun t => name_lt t s) (ihead (inif st)) ->
  run st (section_block (flags (inif st)) s ++ rest)
  = run {| inif := {| ihead := ihead (inif st) ++ [s];
                      default_section := default_section (inif st);
                      flags := flags (inif st) |};
           tmpsec := NamedSec (length (ihead (inif st))) |} rest.
Proof.
  unfold section_ok, has_pairs, section_block. intros Hok Hne Hlt.
  apply andb_true_iff in Hok as [Hok Hasc].
  apply andb_true_iff in Hok as [Hn Hps].
  destruct (head s) as [|p ps] eqn:Eh; [discriminate|]. rewrite <- Eh in *.
  replace (([ch "["] ++ name s ++ [ch "]"] ++ [NL]
            ++ concat (map (pair_line (flags (inif st))) (head s)) ++ [NL])
           ++ rest)
    with (ch "[" :: name s ++ ch "]" :: NL
            :: (concat (map (pair_line (flags (inif st))) (head s))
                  ++ NL :: rest))
    by (simpl; rewrite <- !app_assoc; simpl; rewrite <- !app_assoc;
        reflexivity).
  rewrite (run_header_line st (name s) _ Hn).
  rewrite (enter_section_append st (name s) Hlt).
  set (st1 := {| inif := _; tmpsec := _ |}).
  assert (Hh : sec_head (inif st1) (tmpsec st1) = []).
  { unfold st1. cbn [inif tmpsec sec_head ihead].
    now rewrite nth_error_last. }
  change (flags (inif st)) with (flags (inif st1)).
  rewrite (run_pairs (head s) st1).
  - rewrite run_blank. rewrite Hh. f_equal.
    unfold st1. cbn [inif tmpsec set_sec_head ihead default_section flags].
    rewrite alter_nth_last. cbn [name app].
    replace {| name := name s; head := head s |} with s by now destruct s.
    reflexivity.
  - unfold st1. cbn [inif tmpsec valid_sec ihead].
    rewrite nth_error_last. discriminate.
  - exact Hps.
  - exact Hasc.
  - rewrite Hh. intros a b [].
Qed.

Lemma run_sections (ss : list inisection) :
  forall (st : parser) (rest : cstring),
    forallb (section_ok (flags (inif st))) ss = true ->
    ascending (map name ss) = true ->
    (forall a b, In a (ihead (inif st)) -> In b ss -> name_lt a b) ->
    exists s',
      run st (concat (map (section_block (flags (inif st))) ss) ++ rest)
      = run {| inif := {| ihead := ihead (inif st) ++ filter has_pairs ss;
                          default_section := default_section (inif st);
                          flags := flags (inif st) |};
               tmpsec := s' |} rest.
Proof.
  induction ss as [|s ss IH]; intros st rest Hok Hasc Hlt.
  - exists (tmpsec st). simpl. rewrite app_nil_r.
    now destruct st as [[l d fl] ts].
  - simpl in Hok. apply andb_true_iff in Hok as [Hs Hok].
    simpl map in Hasc. apply ascending_cons_inv in Hasc as [Hasc Hfirst].
    cbn [map concat filter]. rewrite <- app_assoc.
    destruct (has_pairs s) eqn:Hp.
    + rewrite (run_section_block st s _ Hs Hp).
      2:{ apply Forall_forall. intros t Ht. apply Hlt; [exact Ht|now left]. }
      set (st1 := {| inif := _; tmpsec := _ |}).
      change (flags (inif st)) with (flags (inif st1)).
      destruct (IH st1 rest) as (s' & E).
      * exact Hok.
      * exact Hasc.
      * unfold st1. cbn [inif ihead]. intros a b Ha Hb.
        apply in_app_or in Ha as [Ha|[<-|[]]].
        -- apply Hlt; [exact Ha|now right].
        -- rewrite Forall_forall in Hfirst. unfold name_lt.
           apply Hfirst. now apply in_map.
      * exists s'. rewrite E. unfold st1.
        cbn [inif ihead default_section flags].
        now rewrite <- app_assoc.
    + assert (Hb : section_block (flags (inif st)) s = []).
      { unfold section_block. unfold has_pairs in Hp.
        destruct (head s); [reflexivity|discriminate]. }
      rewrite Hb. cbn [app].
      apply IH; auto.
      intros a b Ha Hb'. apply Hlt; [exact Ha|now right].
Qed.

(** ** The traversal *)

Lemma fold_left_collect {A B} (f : A -> B) (l : list A) (acc : list B) :
  fold_left (fun acc x => acc ++ [f x]) l acc = acc ++ map f l.
Proof.
  revert acc; induction l as [|x l IH]; intros acc; simpl.
  - now rewrite app_nil_r.
  - rewrite IH, <- app_assoc. reflexivity.
Qed.

Lemma triples_eq (ini : inifile) :
  triples ini
  = map (fun p => (None, key p, val p)) (default_section ini)
    ++ flat_map (fun s => map (fun p => (Some (name s), key p, val p)) (head s))
         (ihead ini).
Proof.
  unfold triples, ini_foreach.
  rewrite (fold_left_collect (fun p => (None, key p, val p))). simpl.
  generalize (map (fun p => (@None cstring, key p, val p))
                (default_section ini)).
  induction (ihead ini) as [|s l IH]; intros acc; simpl.
  - now rewrite app_nil_r.
  - rewrite (fold_left_collect (fun p => (Some (name s), key p, val p))).
    rewrite IH, <- app_assoc. reflexivity.
Qed.

Lemma triples_prune (ini : inifile) : triples (prune ini) = triples ini.
Proof.
  rewrite !triples_eq. unfold prune. cbn [default_section ihead].
  f_equal.
  induction (ihead ini) as [|s l IH]; simpl; [reflexivity|].
  unfold has_pairs at 1.
  destruct (head s) as [|p ps] eqn:E; simpl.
  - exact IH.
  - rewrite E, IH. reflexivity.
Qed.

(** ** C4: writing a document and parsing the file *)

Lemma lookup_written fs ini fname :
  writable fs fname = true ->
  writeinitofile fs ini (Some fname)
  = (0%Z, snd (writeinitofile fs ini (Some fname)))
  /\ lookup (snd (writeinitofile fs ini (Some fname))) fname
     = Some {| bytes := written ini; fault := None |}.
Proof.
  intros H. unfold writeinitofile. rewrite H. cbn [snd lookup].
  split; [reflexivity|].
  destruct (list_eq_dec ascii_dec fname fname); [reflexivity|congruence].
Qed.

Lemma run_layout (ini : inifile) :
  representable ini = true ->
  inif (run {| inif := makeini (flags ini); tmpsec := DefaultSec |}
          (layout ini))
  = prune ini.
Proof.
  unfold representable. intros H.
  apply andb_true_iff in H as [H Hnames].
  apply andb_true_iff in H as [H Hsecs].
  apply andb_true_iff in H as [Hpairs Hkeys].
  unfold layout.
  set (st0 := {| inif := makeini (flags ini); tmpsec := DefaultSec |}).
  change (flags ini) with (flags (inif st0)).
  rewrite (run_pairs (default_section ini) st0);
    [|exact I|exact Hpairs|exact Hkeys|intros a b []].
  cbn [app]. rewrite run_blank.
  set (st1 := {| inif := _; tmpsec := _ |}).
  rewrite <- (app_nil_r (concat _)).
  change (flags (inif st0)) with (flags (inif st1)).
  destruct (run_sections (ihead ini) st1 []) as (s' & E);
    [exact Hsecs|exact Hnames|intros a b []|].
  rewrite E. reflexivity.
Qed.

(** C4, as the code has it.  Take a document whose pair lists are strictly
    ascending by key and whose section list is strictly ascending by name;
    whose keys are not empty, shorter than 256 bytes, free of [=], [;], space
    and newline, and begin neither with [[] nor with white space; whose
    section names are not empty, shorter than 256 bytes and free of []] and
    newline; whose values, when present, are not empty, shorter than 256 bytes,
    free of newline and, without [INIO_SPACE_AROUND_DELIM], free of spaces
    (with it: not beginning with white space); and whose pairs without value
    occur only under [INIO_ALLOW_EMPTY].  Writing it to a writable path returns
    0, parsing that file into a fresh document with the same flags returns 0,
    and the traversal of the parsed document yields the same sequence of
    (section name, key, value) triples: the parsed document is the written one
    without its sections that have no pair. *)
Theorem write_then_parse_roundtrip (fs : filesystem) (ini : inifile)
    (fname : cstring) :
  representable ini = true ->
  writable fs fname = true ->
  fst (writeinitofile fs ini (Some fname)) = 0%Z
  /\ loadinifromfile (snd (writeinitofile fs ini (Some fname)))
       (makeini (flags ini)) (Some fname)
     = Some (0%Z, prune ini)
  /\ newinifromfile (snd (writeinitofile fs ini (Some fname))) (Some fname)
       (flags ini)
     = Some (prune ini)
  /\ triples (prune ini) = triples ini.
Proof.
  intros Hrep Hw.
  destruct (lookup_written fs ini fname Hw) as [Hret Hfile].
  assert (Hload :
    loadinifromfile (snd (writeinitofile fs ini (Some fname)))
      (makeini (flags ini)) (Some fname)
    = Some (0%Z, prune ini)).
  { rewrite (loadinifromfile_run _ _ _ _ Hfile), written_layout.
    now rewrite run_layout. }
  split; [now rewrite Hret|].
  split; [exact Hload|].
  split; [unfold newinifromfile; now rewrite Hload|].
  apply triples_prune.
Qed.

Lemma write_then_parse_roundtrip_witness :
  let ini :=
    {| ihead := [{| name := cs "A";
                    head := [{| key := cs "k"; val := Some (cs "v") |};
                             {| key := cs "m"; val := None |}] |};
                 {| name := cs "B"; head := [] |}];
       default_section := [{| key := cs "a"; val := Some (cs "1") |}];
       flags := INIO_ALLOW_EMPTY |} in
  let fs := {| lookup := fun _ => None; writable := fun _ => true |} in
  fst (writeinitofile fs ini (Some (cs "a.ini"))) = 0%Z
  /\ loadinifromfile (snd (writeinitofile fs ini (Some (cs "a.ini"))))
       (makeini (flags ini)) (Some (cs "a.ini"))
     = Some (0%Z, prune ini)
  /\ newinifromfile (snd (writeinitofile fs ini (Some (cs "a.ini"))))
       (Some (cs "a.ini")) (flags ini)
     = Some (prune ini)
  /\ triples (prune ini) = triples ini.
Proof.
  exact (write_then_parse_roundtrip
           {| lookup := fun _ => None; writable := fun _ => true |}
           {| ihead := [{| name := cs "A";
                           head := [{| key := cs "k"; val := Some (cs "v") |};
                                    {| key := cs "m"; val := None |}] |};
                        {| name := cs "B"; head := [] |}];
              default_section := [{| key := cs "a"; val := Some (cs "1") |}];
              flags := INIO_ALLOW_EMPTY |}
           (cs "a.ini") eq_refl eq_refl).
Defined.

(** C4 as stated fails: the document whose default section holds the key
    ["k"] with the value ["a b"], under [INIO_NONE], has no empty key, no [=],
    [;] or space in a key or a name and no newline in a value; it is written
    as [k=a b], which is parsed back as the key ["k"] with the value ["a"]. *)
Lemma roundtrip_cuts_value_at_space :
  let ini :=
    {| ihead := [];
       default_section := [{| key := cs "k"; val := Some (cs "a b") |}];
       flags := INIO_NONE |} in
  let fs := {| lookup := fun _ => None; writable := fun _ => true |} in
  spec_representable ini = true
  /\ triples ini = [(None, cs "k", Some (cs "a b"))]
  /\ exists ini',
       loadinifromfile (snd (writeinitofile fs ini (Some (cs "a.ini"))))
         (makeini (flags ini)) (Some (cs "a.ini"))
       = Some (0%Z, ini')
       /\ triples ini' = [(None, cs "k", Some (cs "a"))]
       /\ triples ini' <> triples ini.
Proof.
  cbv zeta. split; [reflexivity|]. split; [reflexivity|].
  eexists. split; [reflexivity|]. split; [reflexivity|].
  discriminate.
Qed.

(** ** The parser on small inputs *)

Example parse_default_then_section :
  parse INIO_NONE
    (cs "a=1" ++ [NL] ++ cs "[S]" ++ [NL] ++ cs "b=2" ++ [NL] ++ cs "c=3"
       ++ [NL])
  = Some (0%Z,
          {| ihead := [{| name := cs "S";
                          head := [{| key := cs "b"; val := Some (cs "2") |};
                                   {| key := cs "c"; val := Some (cs "3") |}] |}];
             default_section := [{| key := cs "a"; val := Some (cs "1") |}];
             flags := INIO_NONE |}).
Proof. reflexivity. Qed.

Example spaces_around_delimiter_need_the_option :
  parse INIO_NONE (cs "x = 5" ++ [NL]) = Some (0%Z, makeini INIO_NONE)
  /\ parse INIO_SPACE_AROUND_DELIM (cs "x = 5" ++ [NL])
     = Some (0%Z, single INIO_SPACE_AROUND_DELIM (cs "x") (Some (cs "5"))).
Proof. split; reflexivity. Qed.

(** The key format does not exclude the newline: a bare key takes the end of
    its line with it. *)
Example bare_key_keeps_its_newline :
  parse INIO_NONE (cs "flag" ++ [NL]) = Some (0%Z, makeini INIO_NONE)
  /\ parse INIO_ALLOW_EMPTY (cs "flag" ++ [NL])
     = Some (0%Z, single INIO_ALLOW_EMPTY (cs "flag" ++ [NL]) None).
Proof. split; reflexivity. Qed.

(** [sscanf] has assigned the name before it looks for the closing bracket. *)
Example unclosed_header_opens_a_section :
  parse INIO_NONE (cs "[abc" ++ [NL] ++ cs "k=v" ++ [NL])
  = Some (0%Z,
          {| ihead := [{| name := cs "abc" ++ [NL];
                          head := [{| key := cs "k"; val := Some (cs "v") |}] |}];
             default_section := [];
             flags := INIO_NONE |}).
Proof. reflexivity. Qed.

(** ** Documents outside [representable] that do not come back *)

Example empty_value_comes_back_absent :
  reparse (single INIO_ALLOW_EMPTY (cs "k") (Some []))
  = Some (0%Z, single INIO_ALLOW_EMPTY (cs "k") None)
  /\ reparse (single INIO_NONE (cs "k") (Some []))
     = Some (0%Z, makeini INIO_NONE).
Proof. split; reflexivity. Qed.

Example absent_value_is_not_written :
  reparse (single INIO_NONE (cs "k") None) = Some (0%Z, makeini INIO_NONE).
Proof. reflexivity. Qed.

Example leading_space_of_value_is_skipped :
  reparse (single INIO_SPACE_AROUND_DELIM (cs "k") (Some (cs " v")))
  = Some (0%Z, single INIO_SPACE_AROUND_DELIM (cs "k") (Some (cs "v"))).
Proof. reflexivity. Qed.

Example key_with_bracket_comes_back_as_section :
  reparse (single INIO_NONE (cs "[k") (Some (cs "v")))
  = Some (0%Z,
          {| ihead := [{| name := cs "k=v" ++ [NL]; head := [] |}];
             default_section := [];
             flags := INIO_NONE |}).
Proof. reflexivity. Qed.

Example name_is_cut_at_bracket :
  reparse {| ihead := [{| name := cs "a]b";
                          head := [{| key := cs "k"; val := Some (cs "v") |}] |}];
             default_section := [];
             flags := INIO_NONE |}
  = Some (0%Z,
          {| ihead := [{| name := cs "a";
                          head := [{| key := cs "k"; val := Some (cs "v") |}] |}];
             default_section := [];
             flags := INIO_NONE |}).
Proof. reflexivity. Qed.

Example descending_keys_come_back_reordered :
  let p k v := {| key := cs k; val := Some (cs v) |} in
  reparse {| ihead := [];
             default_section := [p "c" "1"; p "b" "2"; p "a" "3"];
             flags := INIO_NONE |}
  = Some (0%Z,
          {| ihead := [];
             default_section := [p "a" "3"; p "c" "1"; p "b" "2"];
             flags := INIO_NONE |}).
Proof. reflexivity. Qed.

(** * Further properties of the stores *)

(** ** What an insertion does to the list *)

Lemma pair_insert_loop_shape (p curr : inipair) (rest : list inipair) :
  exists l1 l2,
    pair_insert_loop p curr rest = (l1 ++ p :: l2, length l1)
    /\ (curr :: rest = l1 ++ l2
        \/ exists q, curr :: rest = l1 ++ q :: l2 /\ key q = key p).
Proof.
  revert curr; induction rest as [|nxt rest IH]; intros curr.
  - exists [curr], []. simpl. auto.
  - cbn [pair_insert_loop].
    destruct (strcmp (key p) (key curr)) eqn:E.
    + exists [], (nxt :: rest). split; [reflexivity|]. right.
      exists curr. split; [reflexivity|].
      symmetry. now apply strcmp_eq.
    + exists [], (curr :: nxt :: rest). auto.
    + destruct (IH nxt) as (l1 & l2 & Hl & Hs). rewrite Hl.
      exists (curr :: l1), l2. split; [reflexivity|].
      destruct Hs as [Hs|(q & Hs & Hq)]; simpl; rewrite Hs; eauto.
Qed.

(** X1. [pair_insert] of a pair returns the position at which the pair now
    sits, and the list afterwards is the list before with the pair either
    spliced in or put in the place of one pair of the same key: every other
    pair stays, in the same order. *)
Theorem pair_insert_shape (h : list inipair) (p : inipair) :
  exists l1 l2,
    pair_insert h (Some p) = (l1 ++ p :: l2, Some (length l1))
    /\ nth_error (fst (pair_insert h (Some p))) (length l1) = Some p
    /\ (h = l1 ++ l2 \/ exists q, h = l1 ++ q :: l2 /\ key q = key p).
Proof.
  assert (N : forall l1 l2 : list inipair,
             nth_error (l1 ++ p :: l2) (length l1) = Some p).
  { intros l1 l2. induction l1; simpl; auto. }
  destruct h as [|curr rest].
  - exists [], []. simpl. auto.
  - destruct (pair_insert_loop_shape p curr rest) as (l1 & l2 & Hl & Hs).
    exists l1, l2. cbn [pair_insert]. rewrite Hl. cbn [fst]. auto.
Qed.

Lemma section_insert_loop_shape (s curr : inisection) rest :
  exists l1 l2,
    curr :: rest = l1 ++ l2
    /\ snd (section_insert_loop s curr rest) = length l1
    /\ (fst (section_insert_loop s curr rest) = l1 ++ s :: l2
        \/ (fst (section_insert_loop s curr rest) = curr :: rest
            /\ exists q l2', l2 = q :: l2' /\ name q = name s)).
Proof.
  revert curr; induction rest as [|nxt rest IH]; intros curr.
  - exists [curr], []. simpl. auto.
  - cbn [section_insert_loop].
    destruct (strcmp (name s) (name curr)) eqn:E.
    + exists [], (curr :: nxt :: rest). simpl. repeat split; auto.
      right. split; [reflexivity|]. exists curr, (nxt :: rest).
      split; [reflexivity|]. symmetry. now apply strcmp_eq.
    + exists [], (curr :: nxt :: rest). simpl. auto.
    + destruct (IH nxt) as (l1 & l2 & Hs & Hi & Hl).
      destruct (section_insert_loop s nxt rest) as [l i]. simpl in *.
      exists (curr :: l1), l2. simpl. rewrite Hs, Hi.
      repeat split; auto.
      destruct Hl as [Hl|[Hl Hq]]; rewrite Hl; [now left|].
      right. rewrite <- Hs. auto.
Qed.

(** X2. [section_insert] of a section leaves the default section and the flags
    alone and returns a position of the section list.  Either the section was
    spliced in there and every other section stays, in the same order; or the
    list is exactly as before and the position is that of a section of the
    same name. *)
Theorem section_insert_shape (file : inifile) (sec : inisection) :
  exists l1 l2,
    ihead file = l1 ++ l2
    /\ snd (section_insert file (Some sec)) = Some (length l1)
    /\ default_section (fst (section_insert file (Some sec)))
       = default_section file
    /\ flags (fst (section_insert file (Some sec))) = flags file
    /\ (ihead (fst (section_insert file (Some sec))) = l1 ++ sec :: l2
        \/ (ihead (fst (section_insert file (Some sec))) = ihead file
            /\ exists q l2', l2 = q :: l2' /\ name q = name sec)).
Proof.
  unfold section_insert.
  destruct (ihead file) as [|curr rest] eqn:Eh.
  - exists [], []. simpl. repeat split; auto.
  - destruct (section_insert_loop_shape sec curr rest)
      as (l1 & l2 & Hs & Hi & Hl).
    destruct (section_insert_loop sec curr rest) as [l i]. simpl in *.
    exists l1, l2. rewrite Hi. repeat split; auto.
Qed.

(** ** Insertions that the loops get right *)

Lemma ascending_app_below (l1 l2 : list cstring) (x : cstring) :
  ascending (l1 ++ x :: l2) = true ->
  Forall (fun a => strcmp a x = Lt) l1.
Proof.
  induction l1 as [|a l1 IH]; intros H; [constructor|].
  change ((a :: l1) ++ x :: l2) with (a :: (l1 ++ x :: l2)) in H.
  apply ascending_cons_inv in H as [H Ha].
  constructor; [|now apply IH].
  rewrite Forall_forall in Ha. apply Ha.
  apply in_or_app. right. now left.
Qed.

Lemma keys_below (l1 l2 : list inipair) (p : inipair) :
  ascending (map key (l1 ++ p :: l2)) = true ->
  Forall (fun q => key_lt q p) l1.
Proof.
  rewrite map_app. cbn [map]. intros H.
  apply ascending_app_below in H.
  rewrite Forall_map in H. exact H.
Qed.

Lemma names_below (l1 l2 : list inisection) (s : inisection) :
  ascending (map name (l1 ++ s :: l2)) = true ->
  Forall (fun t => name_lt t s) l1.
Proof.
  rewrite map_app. cbn [map]. intros H.
  apply ascending_app_below in H.
  rewrite Forall_map in H. exact H.
Qed.

(** X3. When the keys already in a section, followed by the keys of the pairs
    to insert, are strictly ascending as one sequence, inserting those pairs
    one after the other leaves the section as the pairs that were there
    followed by the new pairs in that order. *)
Theorem pair_insert_ascending_run (h ps : list inipair) :
  ascending (map key (h ++ ps)) = true ->
  fold_left (fun h p => fst (pair_insert h (Some p))) ps h = h ++ ps.
Proof.
  revert h; induction ps as [|p ps IH]; intros h H; cbn [fold_left].
  - now rewrite app_nil_r.
  - rewrite (pair_insert_append h p (keys_below _ _ _ H)). cbn [fst].
    rewrite IH; rewrite <- app_assoc; [reflexivity|exact H].
Qed.

Lemma pair_insert_ascending_run_witness :
  let p k := {| key := cs k; val := None |} in
  fold_left (fun h p => fst (pair_insert h (Some p))) [p "c"; p "d"]
    [p "a"; p "b"]
  = [p "a"; p "b"] ++ [p "c"; p "d"].
Proof.
  exact (pair_insert_ascending_run
           [{| key := cs "a"; val := None |}; {| key := cs "b"; val := None |}]
           [{| key := cs "c"; val := None |}; {| key := cs "d"; val := None |}]
           eq_refl).
Defined.

(** X4. When the names of the sections already in a document, followed by the
    names of the sections to insert, are strictly ascending as one sequence,
    inserting those sections one after the other leaves the section list as
    the sections that were there followed by the new ones in that order, each
    with the pairs it came with; the default section and the flags are as
    before. *)
Theorem section_insert_ascending_run (ini : inifile) (ss : list inisection) :
  ascending (map name (ihead ini ++ ss)) = true ->
  insert_sections ini ss
  = {| ihead := ihead ini ++ ss; default_section := default_section ini;
       flags := flags ini |}.
Proof.
  unfold insert_sections.
  revert ini; induction ss as [|s ss IH]; intros ini H; cbn [fold_left].
  - rewrite app_nil_r. now destruct ini.
  - rewrite (section_insert_append ini s (names_below _ _ _ H)). cbn [fst].
    rewrite IH; cbn [ihead default_section flags]; rewrite <- app_assoc;
      [reflexivity|exact H].
Qed.

Lemma section_insert_ascending_run_witness :
  let s n := {| name := cs n; head := [{| key := cs "k"; val := None |}] |} in
  insert_sections (makeini 0) [s "A"; s "B"; s "C"]
  = {| ihead := [] ++ [s "A"; s "B"; s "C"]; default_section := [];
       flags := 0 |}.
Proof.
  exact (section_insert_ascending_run (makeini 0)
           [{| name := cs "A"; head := [{| key := cs "k"; val := None |}] |};
            {| name := cs "B"; head := [{| key := cs "k"; val := None |}] |};
            {| name := cs "C"; head := [{| key := cs "k"; val := None |}] |}]
           eq_refl).
Defined.

(** The lookup walks over the keys below the one it looks for. *)
Lemma find_pair_past (l1 rest : list inipair) (p : inipair) :
  Forall (fun q => key_lt q p) l1 ->
  find_pair (key p) (l1 ++ p :: rest) = Some (length l1).
Proof.
  induction l1 as [|a l1 IH]; intros H; simpl.
  - now rewrite strcmp_refl.
  - inversion H as [|? ? Ha Hl]; subst.
    rewrite (strcmp_lt_gt _ _ Ha), (IH Hl). reflexivity.
Qed.

Lemma pair_insert_loop_inner (p q z : inipair) (l2 : list inipair) :
  forall l1 curr rest,
    curr :: rest = l1 ++ q :: z :: l2 ->
    Forall (fun a => key_lt a p) l1 ->
    key q = key p ->
    pair_insert_loop p curr rest = (l1 ++ p :: z :: l2, length l1).
Proof.
  induction l1 as [|a l1 IH]; intros curr rest E Hl Hq.
  - simpl in E. inversion E; subst. cbn [pair_insert_loop].
    rewrite Hq, strcmp_refl. reflexivity.
  - simpl in E. inversion E; subst.
    inversion Hl as [|? ? Ha Hl']; subst.
    destruct (l1 ++ q :: z :: l2) as [|nxt rest'] eqn:E';
      [destruct l1; discriminate|].
    cbn [pair_insert_loop]. rewrite (strcmp_lt_gt _ _ Ha).
    rewrite (IH nxt rest' eq_refl Hl' Hq). reflexivity.
Qed.

(** X5. In a pair list that is strictly ascending by key, [pair_insert] of a
    pair whose key is that of a pair other than the last one puts the new pair
    in the place of the old one and returns its position; the lookup of the
    key then finds the new pair there. *)
Theorem pair_insert_replaces_inner (l1 l2 : list inipair) (q z p : inipair) :
  ascending (map key (l1 ++ q :: z :: l2)) = true ->
  key q = key p ->
  pair_insert (l1 ++ q :: z :: l2) (Some p)
  = (l1 ++ p :: z :: l2, Some (length l1))
  /\ inisection_getpair (l1 ++ p :: z :: l2) (Some (key p))
     = Some (length l1)
  /\ nth_error (l1 ++ p :: z :: l2) (length l1) = Some p.
Proof.
  intros H Hq.
  assert (Hl : Forall (fun a => key_lt a p) l1).
  { apply keys_below in H. eapply Forall_impl; [|exact H].
    intros a Ha. unfold key_lt in *. now rewrite <- Hq. }
  split; [|split].
  - unfold pair_insert.
    destruct (l1 ++ q :: z :: l2) as [|curr rest] eqn:E;
      [destruct l1; discriminate|].
    now rewrite (pair_insert_loop_inner p q z l2 l1 curr rest (eq_sym E) Hl Hq).
  - simpl. now apply find_pair_past.
  - clear. induction l1; simpl; auto.
Qed.

Lemma pair_insert_replaces_inner_witness :
  let old := {| key := cs "b"; val := Some (cs "old") |} in
  let new := {| key := cs "b"; val := Some (cs "new") |} in
  let a := {| key := cs "a"; val := None |} in
  let c := {| key := cs "c"; val := None |} in
  pair_insert ([a] ++ old :: c :: []) (Some new)
  = ([a] ++ new :: c :: [], Some (length [a]))
  /\ inisection_getpair ([a] ++ new :: c :: []) (Some (key new))
     = Some (length [a])
  /\ nth_error ([a] ++ new :: c :: []) (length [a]) = Some new.
Proof.
  exact (pair_insert_replaces_inner
           [{| key := cs "a"; val := None |}] []
           {| key := cs "b"; val := Some (cs "old") |}
           {| key := cs "c"; val := None |}
           {| key := cs "b"; val := Some (cs "new") |}
           eq_refl eq_refl).
Defined.

Lemma section_insert_loop_inner (s q z : inisection) (l2 : list inisection) :
  forall l1 curr rest,
    curr :: rest = l1 ++ q :: z :: l2 ->
    Forall (fun a => name_lt a s) l1 ->
    name q = name s ->
    section_insert_loop s curr rest = (curr :: rest, length l1).
Proof.
  induction l1 as [|a l1 IH]; intros curr rest E Hl Hq.
  - simpl in E. inversion E; subst. cbn [section_insert_loop].
    rewrite Hq, strcmp_refl. reflexivity.
  - simpl in E. inversion E; subst.
    inversion Hl as [|? ? Ha Hl']; subst.
    destruct (l1 ++ q :: z :: l2) as [|nxt rest'] eqn:E';
      [destruct l1; discriminate|].
    cbn [section_insert_loop]. rewrite (strcmp_lt_gt _ _ Ha).
    rewrite (IH nxt rest' eq_refl Hl' Hq). reflexivity.
Qed.

(** X6. In a section list that is strictly ascending by name,
    [section_insert] of a section whose name is that of a section other than
    the last one changes nothing and returns the position of the resident
    section, whose pairs are as they were. *)
Theorem section_insert_returns_inner (file : inifile)
    (l1 l2 : list inisection) (q z sec : inisection) :
  ihead file = l1 ++ q :: z :: l2 ->
  ascending (map name (ihead file)) = true ->
  name q = name sec ->
  section_insert file (Some sec) = (file, Some (length l1))
  /\ nth_error (ihead file) (length l1) = Some q.
Proof.
  intros E H Hq. rewrite E in H.
  assert (Hl : Forall (fun a => name_lt a sec) l1).
  { apply names_below in H. eapply Forall_impl; [|exact H].
    intros a Ha. unfold name_lt in *. now rewrite <- Hq. }
  split.
  - unfold section_insert. rewrite E.
    destruct (l1 ++ q :: z :: l2) as [|curr rest] eqn:E';
      [destruct l1; discriminate|].
    rewrite (section_insert_loop_inner sec q z l2 l1 curr rest (eq_sym E') Hl Hq).
    rewrite <- E. now destruct file.
  - rewrite E. clear. induction l1; simpl; auto.
Qed.

Lemma section_insert_returns_inner_witness :
  let s := {| name := cs "S"; head := [{| key := cs "k"; val := None |}] |} in
  let t := {| name := cs "T"; head := [] |} in
  let file := {| ihead := [s; t]; default_section := []; flags := 0 |} in
  section_insert file (Some {| name := cs "S"; head := [] |})
  = (file, Some (length (@nil inisection)))
  /\ nth_error (ihead file) (length (@nil inisection)) = Some s.
Proof.
  exact (section_insert_returns_inner
           {| ihead := [{| name := cs "S";
                           head := [{| key := cs "k"; val := None |}] |};
                        {| name := cs "T"; head := [] |}];
              default_section := []; flags := 0 |}
           [] []
           {| name := cs "S"; head := [{| key := cs "k"; val := None |}] |}
           {| name := cs "T"; head := [] |}
           {| name := cs "S"; head := [] |}
           eq_refl eq_refl eq_refl).
Defined.

(** ** When an insertion keeps the order *)

Lemma pair_insert_loop_head (p curr : inipair) (rest : list inipair) :
  exists t,
    fst (pair_insert_loop p curr rest) = p :: t
    \/ fst (pair_insert_loop p curr rest) = curr :: t.
Proof.
  destruct rest as [|nxt rest]; simpl; [eauto|].
  destruct (strcmp (key p) (key curr)); simpl; eauto.
  destruct (pair_insert_loop p nxt rest); simpl; eauto.
Qed.

Lemma pair_insert_loop_order (p z : inipair) :
  forall front curr rest,
    curr :: rest = front ++ [z] ->
    ascending (map key (front ++ [z])) = true ->
    ascending (map key (fst (pair_insert_loop p curr rest))) = true
    <-> (strcmp (key p) (key z) = Gt
         \/ Exists (fun q => strcmp (key p) (key q) <> Gt) front).
Proof.
  induction front as [|a front IH]; intros curr rest E H.
  - simpl in E. inversion E; subst. simpl.
    rewrite (strcmp_antisym (key z) (key p)).
    destruct (strcmp (key p) (key z)); simpl; split; auto;
      try discriminate; intros [?|Hex]; try discriminate; inversion Hex.
  - simpl in E. injection E as Ecurr Erest. subst curr rest.
    change (map key ((a :: front) ++ [z]))
      with (key a :: map key (front ++ [z])) in H.
    pose proof H as H0.
    apply ascending_cons_inv in H as [Htail Ha].
    destruct (front ++ [z]) as [|nxt rest'] eqn:E';
      [destruct front; discriminate|].
    cbn [pair_insert_loop].
    destruct (strcmp (key p) (key a)) eqn:Ec.
    + pose proof Ec as Ek. apply strcmp_eq in Ek. split.
      * intros _. right. constructor. rewrite Ec. discriminate.
      * intros _. cbn [fst map]. rewrite Ek. exact H0.
    + cbn [fst map]. split.
      * intros _. right. constructor. rewrite Ec. discriminate.
      * intros _. cbn [ascending]. rewrite Ec. exact H0.
    + specialize (IH nxt rest' eq_refl Htail).
      destruct (pair_insert_loop_head p nxt rest') as (t & Hh).
      destruct (pair_insert_loop p nxt rest') as [l i]. cbn [fst] in *.
      assert (Hstep : ascending (map key (a :: l)) = ascending (map key l)).
      { destruct Hh as [-> | ->]; cbn [map ascending].
        - rewrite (strcmp_antisym (key a) (key p)), Ec. reflexivity.
        - inversion Ha as [|? ? Hn _]; subst. cbn [map] in *.
          now rewrite Hn. }
      rewrite Hstep, IH. split; intros [Hz|Hex]; auto.
      inversion Hex as [? ? Hq|? ? Hq]; subst; [congruence|auto].
Qed.

(** X7. For a pair list that is strictly ascending by key and not empty,
    [pair_insert] leaves a strictly ascending list exactly when the new key is
    above the last key of the list or not above some key before the last. *)
Theorem pair_insert_keeps_order_iff (front : list inipair) (z p : inipair) :
  ascending_keys (front ++ [z]) ->
  ascending_keys (fst (pair_insert (front ++ [z]) (Some p)))
  <-> (strcmp (key p) (key z) = Gt
       \/ Exists (fun q => strcmp (key p) (key q) <> Gt) front).
Proof.
  unfold ascending_keys, pair_insert. intros H.
  destruct (front ++ [z]) as [|curr rest] eqn:E;
    [destruct front; discriminate|].
  rewrite <- E in H.
  pose proof (pair_insert_loop_order p z front curr rest (eq_sym E) H) as P.
  destruct (pair_insert_loop p curr rest) as [l i]. exact P.
Qed.

Lemma pair_insert_keeps_order_iff_witness :
  let a := {| key := cs "a"; val := None |} in
  let c := {| key := cs "c"; val := None |} in
  let b := {| key := cs "b"; val := None |} in
  ascending_keys (fst (pair_insert ([a] ++ [c]) (Some b)))
  <-> (strcmp (key b) (key c) = Gt
       \/ Exists (fun q => strcmp (key b) (key q) <> Gt) [a]).
Proof.
  exact (pair_insert_keeps_order_iff
           [{| key := cs "a"; val := None |}]
           {| key := cs "c"; val := None |}
           {| key := cs "b"; val := None |} eq_refl).
Defined.

(** * Further properties of the lookups and of the traversal *)

Lemma find_pair_spec (k : cstring) (h : list inipair) :
  match find_pair k h with
  | None => ~ In k (map key h)
  | Some i =>
      exists p, nth_error h i = Some p /\ key p = k
                /\ ~ In k (map key (firstn i h))
  end.
Proof.
  induction h as [|q h IH]; simpl; [tauto|].
  destruct (strcmp k (key q)) eqn:E.
  - exists q. apply strcmp_eq in E. subst. simpl. repeat split; auto.
  - assert (Hne : key q <> k)
      by (intros <-; rewrite strcmp_refl in E; discriminate).
    destruct (find_pair k h) as [i|]; simpl.
    + destruct IH as (p & Hn & Hk & Hf). exists p. tauto.
    + tauto.
  - assert (Hne : key q <> k)
      by (intros <-; rewrite strcmp_refl in E; discriminate).
    destruct (find_pair k h) as [i|]; simpl.
    + destruct IH as (p & Hn & Hk & Hf). exists p. tauto.
    + tauto.
Qed.

Lemma find_section_spec (n : cstring) (l : list inisection) :
  match find_section n l with
  | None => ~ In n (map name l)
  | Some i =>
      exists s, nth_error l i = Some s /\ name s = n
                /\ ~ In n (map name (firstn i l))
  end.
Proof.
  induction l as [|q l IH]; simpl; [tauto|].
  destruct (strcmp n (name q)) eqn:E.
  - exists q. apply strcmp_eq in E. subst. simpl. repeat split; auto.
  - assert (Hne : name q <> n)
      by (intros <-; rewrite strcmp_refl in E; discriminate).
    destruct (find_section n l) as [i|]; simpl.
    + destruct IH as (p & Hn & Hk & Hf). exists p. tauto.
    + tauto.
  - assert (Hne : name q <> n)
      by (intros <-; rewrite strcmp_refl in E; discriminate).
    destruct (find_section n l) as [i|]; simpl.
    + destruct IH as (p & Hn & Hk & Hf). exists p. tauto.
    + tauto.
Qed.

(** X8. [inisection_getpair] with a null key returns the null pointer.  With a
    key it returns the null pointer exactly when no pair of the section has
    that key, and otherwise the position of the first pair that has it. *)
Theorem inisection_getpair_first (h : list inipair) (k : cstring) :
  inisection_getpair h None = None
  /\ match inisection_getpair h (Some k) with
     | None => ~ In k (map key h)
     | Some i =>
         exists p, nth_error h i = Some p /\ key p = k
                   /\ ~ In k (map key (firstn i h))
     end.
Proof. split; [reflexivity|apply find_pair_spec]. Qed.

(** X9. [ini_getsection] with a null name returns the default section.  With a
    name it returns the null pointer exactly when no section of the list has
    that name, and otherwise the first section of the list that has it, never
    the default section. *)
Theorem ini_getsection_first (ini : inifile) (n : cstring) :
  ini_getsection ini None = Some DefaultSec
  /\ match ini_getsection ini (Some n) with
     | None => ~ In n (map name (ihead ini))
     | Some DefaultSec => False
     | Some (NamedSec i) =>
         exists s, nth_error (ihead ini) i = Some s /\ name s = n
                   /\ ~ In n (map name (firstn i (ihead ini)))
     end.
Proof.
  split; [reflexivity|]. simpl.
  pose proof (find_section_spec n (ihead ini)) as P.
  destruct (find_section n (ihead ini)); exact P.
Qed.

Lemma fold_left_map {A B C} (f : A -> C -> A) (g : B -> C) l a :
  fold_left f (map g l) a = fold_left (fun a x => f a (g x)) l a.
Proof. revert a; induction l; intros a0; simpl; auto. Qed.

Lemma fold_left_flat_map {A B C} (f : A -> C -> A) (g : B -> list C) l a :
  fold_left f (flat_map g l) a
  = fold_left (fun a x => fold_left f (g x) a) l a.
Proof.
  revert a; induction l as [|x l IH]; intros a0; simpl; [reflexivity|].
  now rewrite fold_left_app, IH.
Qed.

Lemma fold_left_pointwise {A B} (f g : A -> B -> A) l a :
  (forall a x, f a x = g a x) -> fold_left f l a = fold_left g l a.
Proof.
  intros H. revert a; induction l as [|x l IH]; intros a0; simpl;
    [reflexivity|].
  now rewrite H, IH.
Qed.

(** X10. [ini_foreach], and [parseini] which calls it, call the callback once
    for every pair of the document: first for the pairs of the default
    section in list order, with the null section name, then for the pairs of
    each named section, section after section in list order. *)
Theorem ini_foreach_visits {A} (ini : inifile)
    (cb : option cstring -> inipair -> A -> A) (a : A) :
  ini_foreach ini cb a
  = fold_left (fun a v => cb (fst v) (snd v) a) (visits ini) a
  /\ parseini ini cb a = ini_foreach ini cb a
  /\ length (visits ini)
     = length (default_section ini)
       + list_sum (map (fun s => length (head s)) (ihead ini)).
Proof.
  split; [|split; [reflexivity|]].
  - unfold ini_foreach, visits.
    rewrite fold_left_app, fold_left_map, fold_left_flat_map. cbn [fst snd].
    apply fold_left_pointwise. intros a0 s. now rewrite fold_left_map.
  - unfold visits. rewrite length_app, length_map. f_equal.
    induction (ihead ini) as [|s l IH]; simpl; [reflexivity|].
    now rewrite length_app, length_map, IH.
Qed.

Lemma In_visits_default (ini : inifile) (pr : inipair) :
  In (None, pr) (visits ini) <-> In pr (default_section ini).
Proof.
  unfold visits. rewrite in_app_iff, in_map_iff, in_flat_map. split.
  - intros [(x & [= <-] & Hx)|(s & _ & Hs)]; [exact Hx|].
    apply in_map_iff in Hs as (x & [=] & _).
  - intros H. left. eauto.
Qed.

Lemma In_visits_named (ini : inifile) (n : cstring) (pr : inipair) :
  In (Some n, pr) (visits ini)
  <-> exists s, In s (ihead ini) /\ name s = n /\ In pr (head s).
Proof.
  unfold visits. rewrite in_app_iff, in_map_iff, in_flat_map. split.
  - intros [(x & [=] & _)|(s & Hs & Hp)].
    apply in_map_iff in Hp as (x & [= <- <-] & Hx). eauto.
  - intros (s & Hs & <- & Hp). right. exists s. split; [exact Hs|].
    apply in_map_iff. eauto.
Qed.

Lemma NoDup_map_unique {A B} (f : A -> B) (l : list A) (x y : A) :
  NoDup (map f l) -> In x l -> In y l -> f x = f y -> x = y.
Proof.
  induction l as [|a l IH]; simpl; intros Hn Hx Hy E; [tauto|].
  inversion Hn as [|? ? Ha Hl]; subst.
  destruct Hx as [<-|Hx], Hy as [<-|Hy]; auto.
  - exfalso. apply Ha. rewrite E. now apply in_map.
  - exfalso. apply Ha. rewrite <- E. now apply in_map.
Qed.

(** X11. A pair that [ini_getpair] finds for a section name and a key has that
    key and is one that the traversal visits under that section name.  When no
    two sections of the list have the same name, the converse holds: for
    every pair that the traversal visits, [ini_getpair] on its section name
    and key finds a pair. *)
Theorem ini_getpair_visited (ini : inifile) (section : option cstring)
    (k : cstring) :
  (forall p, ini_getpair ini section (Some k) = Some p ->
     exists pr, deref_pair ini p = Some pr /\ key pr = k
                /\ In (section, pr) (visits ini))
  /\ (NoDup (map name (ihead ini)) ->
      forall pr, In (section, pr) (visits ini) -> key pr = k ->
                 ini_getpair ini section (Some k) <> None).
Proof.
  split.
  - intros p Hp.
    destruct (ini_getpair_some _ _ _ _ Hp)
      as (kk & pr & [= <-] & Hs & Hf & Hn & Hk).
    exists pr. split; [exact Hn|]. split; [exact Hk|].
    destruct section as [n|]; simpl in Hs.
    + destruct (find_section n (ihead ini)) as [i|] eqn:Ei; [|discriminate].
      injection Hs as Hs. rewrite <- Hs in Hn. simpl in Hn.
      destruct (find_section_some _ _ _ Ei) as (s & Hi & Hname).
      rewrite Hi in Hn. apply In_visits_named. exists s.
      repeat split; auto.
      * eapply nth_error_In; eassumption.
      * eapply nth_error_In; eassumption.
    + injection Hs as Hs. rewrite <- Hs in Hn. simpl in Hn.
      apply In_visits_default. eapply nth_error_In; eassumption.
  - intros Hnd pr Hin Hk. unfold ini_getpair.
    destruct section as [n|]; simpl.
    + apply In_visits_named in Hin as (s & Hs & Hname & Hp).
      pose proof (find_section_spec n (ihead ini)) as P.
      destruct (find_section n (ihead ini)) as [i|]; simpl.
      * destruct P as (s' & Hi & Hname' & _). rewrite Hi.
        assert (s' = s).
        { apply (NoDup_map_unique name (ihead ini)); auto.
          - eapply nth_error_In; eassumption.
          - congruence. }
        subst s'.
        pose proof (find_pair_spec k (head s)) as Q.
        destruct (find_pair k (head s)); [discriminate|].
        exfalso. apply Q. rewrite <- Hk. now apply in_map.
      * exfalso. apply P. rewrite <- Hname. now apply in_map.
    + apply In_visits_default in Hin.
      pose proof (find_pair_spec k (default_section ini)) as Q.
      destruct (find_pair k (default_section ini)); [discriminate|].
      exfalso. apply Q. rewrite <- Hk. now apply in_map.
Qed.

(** * Further properties of [ini_set] and [ini_put] *)

Lemma nth_error_alter_nth_ne {A} (f : A -> A) (i j : nat) (l : list A) :
  i <> j -> nth_error (alter_nth f i l) j = nth_error l j.
Proof.
  revert i j; induction l as [|y l IH]; intros [|i] [|j] H; simpl;
    try reflexivity; try congruence.
  apply IH. congruence.
Qed.

Lemma sec_head_set_sec_head_ne ini s s' h :
  s <> s' -> sec_head (set_sec_head ini s h) s' = sec_head ini s'.
Proof.
  destruct s as [|i], s' as [|j]; simpl; try reflexivity; try congruence.
  intros H. rewrite nth_error_alter_nth_ne by congruence. reflexivity.
Qed.

Lemma secptr_eq_dec (s s' : secptr) : {s = s'} + {s <> s'}.
Proof. decide equality. apply Nat.eq_dec. Qed.

(** X12. [ini_set] changes nothing but the pair that the lookup of its section
    and key finds: the flags are as before, and every other position of the
    document holds what it held. *)
Theorem ini_set_frame (ini : inifile) (section k v : option cstring) :
  flags (fst (ini_set ini section k v)) = flags ini
  /\ forall q,
       ini_getpair ini section k = Some q
       \/ deref_pair (fst (ini_set ini section k v)) q = deref_pair ini q.
Proof.
  destruct (ini_getpair ini section k) as [p|] eqn:Hp.
  - destruct (ini_set_found _ _ _ v _ Hp) as (pr & Hd & Hset).
    destruct (ini_getpair_some _ _ _ _ Hp) as (kk & _ & -> & Hs & _).
    pose proof (ini_getsection_valid _ _ _ Hs) as Hv.
    rewrite Hset. cbn [fst]. split; [apply flags_set_sec_head|].
    intros [s' j]. destruct p as [s i]. cbn [fst snd] in *.
    destruct (secptr_eq_dec s s') as [<-|Hne].
    + destruct (Nat.eq_dec i j) as [<-|Hij]; [now left|].
      right. unfold deref_pair. cbn [fst snd].
      rewrite (sec_head_set_sec_head _ _ _ Hv).
      now apply nth_error_alter_nth_ne.
    + right. unfold deref_pair. cbn [fst snd].
      now rewrite sec_head_set_sec_head_ne.
  - rewrite (ini_set_not_found _ _ _ v Hp). cbn [fst]. auto.
Qed.

(** X13. Of two [ini_set] on the same section and key the second decides: the
    document after both is the document after the second alone. *)
Theorem ini_set_last_wins (ini : inifile) (section k v1 v2 : option cstring) :
  fst (ini_set (fst (ini_set ini section k v1)) section k v2)
  = fst (ini_set ini section k v2).
Proof.
  destruct (ini_getpair ini section k) as [p|] eqn:Hp.
  - destruct (ini_set_found_effect _ _ _ v1 _ Hp) as (_ & _ & _ & Hp1 & _).
    destruct (ini_set_found _ _ _ v2 _ Hp1) as (_ & _ & H12).
    destruct (ini_set_found _ _ _ v1 _ Hp) as (_ & _ & H1).
    destruct (ini_set_found _ _ _ v2 _ Hp) as (_ & _ & H2).
    destruct (ini_getpair_some _ _ _ _ Hp) as (kk & _ & -> & Hs & _).
    pose proof (ini_getsection_valid _ _ _ Hs) as Hv.
    rewrite H12, H2. cbn [fst]. rewrite H1. cbn [fst].
    rewrite set_sec_head_twice, (sec_head_set_sec_head _ _ _ Hv).
    now rewrite alter_nth_twice.
  - rewrite (ini_set_not_found _ _ _ v1 Hp). cbn [fst].
    reflexivity.
Qed.

Lemma flat_map_alter_grow {A B} (f : A -> list B) (g : A -> A) i l :
  (forall x, nth_error l i = Some x -> incl (f x) (f (g x))) ->
  incl (flat_map f l) (flat_map f (alter_nth g i l)).
Proof.
  revert i; induction l as [|y l IH]; intros [|i] H; simpl;
    try apply incl_refl.
  - apply incl_app; [|apply incl_appr, incl_refl].
    apply incl_appl. now apply H.
  - apply incl_app; [apply incl_appl, incl_refl|].
    apply incl_appr. now apply IH.
Qed.

Lemma flat_map_alter_bound {A B} (f : A -> list B) (g : A -> A) i l
    (extra : list B) :
  (forall x, nth_error l i = Some x -> incl (f (g x)) (extra ++ f x)) ->
  incl (flat_map f (alter_nth g i l)) (extra ++ flat_map f l).
Proof.
  revert i; induction l as [|y l IH]; intros [|i] H; simpl;
    try (apply incl_appr, incl_refl).
  - apply incl_app.
    + intros b Hb. apply (H y eq_refl) in Hb.
      apply in_app_or in Hb as [Hb|Hb]; apply in_or_app; auto.
      right. apply in_or_app. auto.
    + apply incl_appr, incl_appr, incl_refl.
  - apply incl_app.
    + apply incl_appr, incl_appl, incl_refl.
    + intros b Hb. apply (IH i H) in Hb.
      apply in_app_or in Hb as [Hb|Hb]; apply in_or_app; auto.
      right. apply in_or_app. auto.
Qed.

(** The traversal after pairs were added to one section. *)
Lemma visits_set_sec_head_grow ini s h' :
  incl (sec_head ini s) h' ->
  incl (visits ini) (visits (set_sec_head ini s h')).
Proof.
  intros H. unfold visits. destruct s as [|i]; simpl in *.
  - apply incl_app; [|apply incl_appr, incl_refl].
    apply incl_appl. intros x Hx. apply in_map_iff in Hx as (p & <- & Hp).
    apply in_map. auto.
  - apply incl_app; [apply incl_appl, incl_refl|].
    apply incl_appr. apply flat_map_alter_grow.
    intros x Hx. rewrite Hx in H. simpl.
    intros y Hy. apply in_map_iff in Hy as (p & <- & Hp).
    apply in_map. auto.
Qed.

Lemma visits_set_sec_head_bound ini section s h' p :
  ini_getsection ini section = Some s ->
  (forall pr, In pr h' -> pr = p \/ In pr (sec_head ini s)) ->
  incl (visits (set_sec_head ini s h')) ((section, p) :: visits ini).
Proof.
  intros Hs H. unfold visits.
  destruct section as [n|]; simpl in Hs.
  - destruct (find_section n (ihead ini)) as [i|] eqn:Ei; [|discriminate].
    injection Hs as <-. simpl in *.
    destruct (find_section_some _ _ _ Ei) as (sec & Hi & Hname).
    rewrite Hi in H.
    apply incl_app; [apply incl_tl, incl_appl, incl_refl|].
    intros y Hy.
    apply (flat_map_alter_bound _ _ i (ihead ini) [(Some n, p)]) in Hy.
    + simpl in Hy. destruct Hy as [<-|Hy]; [now left|].
      right. apply in_or_app. auto.
    + intros x Hx. rewrite Hi in Hx. injection Hx as <-. simpl.
      intros z Hz. apply in_map_iff in Hz as (pr & <- & Hpr).
      destruct (H pr Hpr) as [->|Hin].
      * left. now rewrite Hname.
      * right. apply in_map. exact Hin.
  - injection Hs as <-. simpl in *.
    apply incl_app; [|apply incl_tl, incl_appr, incl_refl].
    intros y Hy. apply in_map_iff in Hy as (pr & <- & Hpr).
    destruct (H pr Hpr) as [->|Hin]; [now left|].
    right. apply in_or_app. left. now apply in_map.
Qed.

(** A pair with a new key is spliced in. *)
Lemma pair_insert_fresh_split (h : list inipair) (p : inipair) :
  find_pair (key p) h = None ->
  exists l1 l2, h = l1 ++ l2 /\ fst (pair_insert h (Some p)) = l1 ++ p :: l2.
Proof.
  intros Hf.
  destruct h as [|curr rest]; [exists [], []; auto|].
  destruct (pair_insert_loop_shape p curr rest) as (l1 & l2 & Hl & Hs).
  cbn [pair_insert]. rewrite Hl. cbn [fst].
  exists l1, l2. split; [|reflexivity].
  destruct Hs as [Hs|(q & Hs & Hq)]; [exact Hs|].
  exfalso. pose proof (find_pair_spec (key p) (curr :: rest)) as P.
  rewrite Hf in P. apply P. rewrite Hs, map_app, <- Hq.
  apply in_or_app. right. now left.
Qed.

(** A section with a new name is spliced in. *)
Lemma section_insert_fresh_split (ini : inifile) (s : inisection) :
  find_section (name s) (ihead ini) = None ->
  exists l1 l2,
    ihead ini = l1 ++ l2
    /\ ihead (fst (section_insert ini (Some s))) = l1 ++ s :: l2
    /\ default_section (fst (section_insert ini (Some s)))
       = default_section ini
    /\ flags (fst (section_insert ini (Some s))) = flags ini.
Proof.
  intros Hf. unfold section_insert.
  destruct (ihead ini) as [|curr rest] eqn:E.
  - exists [], []. simpl. auto.
  - destruct (section_insert_loop_shape s curr rest)
      as (l1 & l2 & Hs & Hi & Hl).
    destruct (section_insert_loop s curr rest) as [l i]. cbn [fst snd] in *.
    exists l1, l2. repeat split; auto.
    destruct Hl as [Hl|[_ (q & l2' & -> & Hq)]]; [exact Hl|].
    exfalso. pose proof (find_section_spec (name s) (curr :: rest)) as P.
    rewrite Hf in P. apply P. rewrite Hs, map_app, <- Hq.
    apply in_or_app. right. now left.
Qed.

Lemma put_pair_keeps ini section s (p : inipair) :
  ini_getsection ini section = Some s ->
  find_pair (key p) (sec_head ini s) = None ->
  let ini' :=
    set_sec_head ini s (fst (pair_insert (sec_head ini s) (Some p))) in
  flags ini' = flags ini
  /\ incl (visits ini) (visits ini')
  /\ incl (visits ini') ((section, p) :: visits ini).
Proof.
  intros Hs Hk. cbv zeta.
  destruct (pair_insert_fresh_split _ _ Hk) as (l1 & l2 & Hh & Hh').
  rewrite Hh'. split; [apply flags_set_sec_head|]. split.
  - apply visits_set_sec_head_grow. rewrite Hh.
    intros x Hx. apply in_app_or in Hx as [Hx|Hx]; apply in_or_app; auto.
    right. now right.
  - apply visits_set_sec_head_bound; [exact Hs|].
    intros pr Hpr. rewrite Hh.
    apply in_app_or in Hpr as [Hpr|[<-|Hpr]]; auto;
      right; apply in_or_app; auto.
Qed.

(** X14. [ini_put] removes nothing and changes nothing: the flags are as
    before, every pair that the traversal visited is still visited under the
    same section name, and the only pair that the traversal can visit in
    addition is the given key with the given value under the given section
    name. *)
Theorem ini_put_keeps (ini : inifile) (section : option cstring)
    (k : cstring) (v : option cstring) :
  flags (fst (ini_put ini section (Some k) v)) = flags ini
  /\ incl (visits ini) (visits (fst (ini_put ini section (Some k) v)))
  /\ incl (visits (fst (ini_put ini section (Some k) v)))
       ((section, {| key := k; val := v |}) :: visits ini).
Proof.
  unfold ini_put.
  destruct (ini_getsection ini section) as [s|] eqn:Hs.
  - unfold inisection_getpair.
    destruct (find_pair k (sec_head ini s)) as [i|] eqn:Hk.
    + cbn [fst]. split; [reflexivity|].
      split; [apply incl_refl|apply incl_tl, incl_refl].
    + pose proof (put_pair_keeps ini section s {| key := k; val := v |} Hs Hk)
        as P.
      cbn [makepair].
      destruct (pair_insert (sec_head ini s) (Some {| key := k; val := v |}))
        as [h r]. exact P.
  - destruct section as [n|]; [|discriminate Hs].
    simpl in Hs.
    destruct (find_section n (ihead ini)) as [j|] eqn:Hn; [discriminate|].
    destruct (section_insert_fresh ini {| name := n; head := [] |} Hn)
      as (ini1 & j & Hins & Hfind & Hnth).
    destruct (section_insert_fresh_split ini {| name := n; head := [] |} Hn)
      as (l1 & l2 & Hl & Hl1 & Hd1 & Hf1).
    cbn [makesection]. rewrite Hins in *. cbn [fst option_map] in *.
    cbn [name] in Hfind.
    assert (Hv1 : visits ini1 = visits ini).
    { unfold visits. rewrite Hd1, Hl1, Hl, !flat_map_app. reflexivity. }
    assert (Hs1 : ini_getsection ini1 (Some n) = Some (NamedSec j))
      by (simpl; now rewrite Hfind).
    assert (Hh : sec_head ini1 (NamedSec j) = [])
      by (simpl; now rewrite Hnth).
    assert (Hk : find_pair k (sec_head ini1 (NamedSec j)) = None)
      by now rewrite Hh.
    unfold inisection_getpair. rewrite Hk.
    pose proof (put_pair_keeps ini1 (Some n) (NamedSec j)
                  {| key := k; val := v |} Hs1 Hk) as P.
    cbn [makepair].
    destruct (pair_insert (sec_head ini1 (NamedSec j))
                (Some {| key := k; val := v |})) as [h r].
    cbn [fst] in *. rewrite Hv1, Hf1 in P. exact P.
Qed.

(** After [ini_put] the lookup finds the pair that was returned. *)
Lemma ini_put_found_after ini section k v :
  exists p,
    snd (ini_put ini section (Some k) v) = Some p
    /\ ini_getpair (fst (ini_put ini section (Some k) v)) section (Some k)
       = Some p.
Proof.
  destruct (ini_getpair ini section (Some k)) as [q|] eqn:Hq.
  - rewrite (ini_put_existing _ _ _ v _ Hq). simpl. eauto.
  - unfold ini_getpair in Hq. unfold ini_put.
    destruct (ini_getsection ini section) as [s|] eqn:Hs.
    + simpl in Hq.
      destruct (find_pair k (sec_head ini s)) as [i|] eqn:Hk;
        [discriminate|].
      unfold inisection_getpair. rewrite Hk.
      destruct (put_new_pair ini section s k v Hs Hk)
        as (h & i & Hins & Hget & _).
      rewrite Hins. simpl. eauto.
    + destruct section as [n|]; [|discriminate Hs].
      simpl in Hs.
      destruct (find_section n (ihead ini)) as [j|] eqn:Hn; [discriminate|].
      destruct (section_insert_fresh ini {| name := n; head := [] |} Hn)
        as (ini1 & j & Hins & Hfind & Hnth).
      simpl makesection. rewrite Hins. simpl option_map.
      simpl in Hfind.
      assert (Hs1 : ini_getsection ini1 (Some n) = Some (NamedSec j))
        by (simpl; now rewrite Hfind).
      assert (Hk : find_pair k (sec_head ini1 (NamedSec j)) = None)
        by (simpl; now rewrite Hnth).
      cbv iota beta. unfold inisection_getpair. rewrite Hk.
      destruct (put_new_pair ini1 (Some n) (NamedSec j) k v Hs1 Hk)
        as (h & i & Hins2 & Hget & _).
      rewrite Hins2. simpl. eauto.
Qed.

(** X15. After [ini_put] on a section and a key, [ini_set] on the same section
    and key with a value that is not null succeeds: it returns the pair that
    [ini_put] returned, and that pair then holds the key and the new value,
    whether [ini_put] had created the pair or found it. *)
Theorem ini_put_then_set (ini : inifile) (section : option cstring)
    (k : cstring) (v1 : option cstring) (v2 : cstring) :
  exists p,
    snd (ini_put ini section (Some k) v1) = Some p
    /\ snd (ini_set (fst (ini_put ini section (Some k) v1)) section (Some k)
              (Some v2))
       = Some p
    /\ deref_pair
         (fst (ini_set (fst (ini_put ini section (Some k) v1)) section
                 (Some k) (Some v2))) p
       = Some {| key := k; val := Some v2 |}.
Proof.
  destruct (ini_put_found_after ini section k v1) as (p & Hret & Hget).
  exists p. split; [exact Hret|].
  destruct (ini_set_found_effect _ _ _ (Some v2) _ Hget)
    as (pr & Hd & Hd' & _ & Hr & _).
  destruct (ini_getpair_some _ _ _ _ Hget)
    as (kk & pr' & [= <-] & _ & _ & Hn & Hk).
  unfold deref_pair in Hd. rewrite Hn in Hd. injection Hd as <-.
  split; [exact Hr|]. now rewrite Hd', Hk.
Qed.

(** * Further properties of the parser *)

Lemma skip_space_all (s : cstring) :
  forallb isspace s = true -> skip_space s = [].
Proof.
  induction s as [|c s IH]; simpl; [reflexivity|].
  destruct (isspace c); simpl; [exact IH|discriminate].
Qed.

(** X16. A line that holds nothing but white space (spaces, tabs, the newline,
    or nothing at all) is ignored under every combination of options: the
    document and the current section are as before. *)
Theorem whitespace_line_ignored (st : parser) (line : cstring) :
  forallb isspace line = true ->
  recognise (flags (inif st)) line = Ignored /\ process_line st line = st.
Proof.
  intros H. apply skip_space_all in H.
  assert (R : recognise (flags (inif st)) line = Ignored).
  { unfold recognise, is_header, is_keyvalue, is_barekey, keyvalfmt, sscanf.
    unfold fmt_section, fmt_spaces, fmt_no_spaces, fmt_key.
    destruct (has_flag (flags (inif st)) INIO_SPACE_AROUND_DELIM),
      (has_flag (flags (inif st)) INIO_ALLOW_EMPTY);
      cbn [sscanf_from]; rewrite H; reflexivity. }
  split; [exact R|]. now rewrite process_line_act, R.
Qed.

Lemma whitespace_line_ignored_witness :
  let st := {| inif := makeini INIO_ALL; tmpsec := DefaultSec |} in
  let line := cs "  " ++ [ascii_of_nat 9; ascii_of_nat 13; NL] in
  recognise (flags (inif st)) line = Ignored /\ process_line st line = st.
Proof.
  exact (whitespace_line_ignored
           {| inif := makeini INIO_ALL; tmpsec := DefaultSec |}
           (cs "  " ++ [ascii_of_nat 9; ascii_of_nat 13; NL]) eq_refl).
Defined.

Lemma scanset_field (w : nat) (ex : list ascii) (s : cstring) :
  (length (fst (scanset w ex s)) <= w)%nat
  /\ free_of ex (fst (scanset w ex s)) = true
  /\ s = fst (scanset w ex s) ++ snd (scanset w ex s).
Proof.
  revert s; induction w as [|w IH]; intros s.
  - destruct s; simpl; repeat split; auto.
  - destruct s as [|c s]; [simpl; repeat split; auto with arith|].
    cbn [scanset].
    destruct (excludes ex c) eqn:E; [simpl; repeat split; auto with arith|].
    specialize (IH s). destruct (scanset w ex s) as [tok r]. simpl in *.
    destruct IH as (Hl & Hf & Hs). rewrite E, Hf. simpl.
    repeat split; [lia|congruence].
Qed.

(** Whatever the input, [sscanf] assigns to the conversions of its format in
    order, each a field of its conversion, and returns their number, or [EOF]
    when it assigned nothing. *)
Lemma sscanf_from_fields (fmt : list directive) :
  forall (s : cstring) (args : list cstring),
    exists toks,
      snd (sscanf_from fmt s args) = args ++ toks
      /\ Forall2 (fun tok c => field (fst c) (snd c) tok) toks
           (firstn (length toks) (conversions fmt))
      /\ (fst (sscanf_from fmt s args)
          = Z.of_nat (length (snd (sscanf_from fmt s args)))
          \/ (fst (sscanf_from fmt s args) = EOF
              /\ snd (sscanf_from fmt s args) = [])).
Proof.
  assert (Stop : forall (cv : list (nat * list ascii)) (args : list cstring) r,
             r = Z.of_nat (length args) \/ (r = EOF /\ args = []) ->
             exists toks,
               args = args ++ toks
               /\ Forall2 (fun tok c => field (fst c) (snd c) tok) toks
                    (firstn (length toks) cv)
               /\ (r = Z.of_nat (length args) \/ (r = EOF /\ args = []))).
  { intros cv args r Hr. exists []. rewrite app_nil_r. simpl.
    repeat split; auto. }
  assert (Fail : forall args : list cstring,
             input_failure args = Z.of_nat (length args)
             \/ (input_failure args = EOF /\ args = [])).
  { intros [|a args]; simpl; auto. }
  induction fmt as [|d fmt IH]; intros s args.
  - simpl. apply Stop. auto.
  - destruct d as [|c|w ex].
    + cbn [sscanf_from conversions]. apply IH.
    + cbn [sscanf_from conversions].
      destruct s as [|x s]; [cbn [fst snd]; apply Stop, Fail|].
      destruct (Ascii.eqb x c); [apply IH|].
      cbn [fst snd]. apply Stop. auto.
    + cbn [sscanf_from conversions].
      destruct s as [|x s]; [cbn [fst snd]; apply Stop, Fail|].
      pose proof (scanset_field w ex (x :: s)) as (Hl & Hf & Hs).
      destruct (scanset w ex (x :: s)) as [[|t tok] r]; cbn [fst snd] in *.
      * apply Stop. auto.
      * destruct (IH r (args ++ [t :: tok])) as (toks & Ha & Hfs & Hr).
        exists ((t :: tok) :: toks). rewrite <- app_assoc in Ha.
        split; [exact Ha|]. split; [|exact Hr].
        cbn [length firstn]. constructor; [|exact Hfs].
        unfold field. cbn [fst snd]. repeat split; auto. discriminate.
Qed.

(** The fields of a call that returned the number of its conversions. *)
Lemma sscanf_one (line : cstring) (fmt : list directive) w ex rest :
  conversions fmt = (w, ex) :: rest ->
  fst (sscanf line fmt) = 1%Z ->
  field w ex (arg 0 (snd (sscanf line fmt))).
Proof.
  unfold sscanf. intros Hc Hr.
  destruct (sscanf_from_fields fmt line []) as (toks & Ha & Hf & Hv).
  rewrite Ha in *. cbn [app] in *. rewrite Hr in Hv.
  destruct Hv as [Hv|[Hv _]]; [|discriminate].
  destruct toks as [|t [|t2 toks]]; try (simpl in Hv; lia).
  rewrite Hc in Hf. simpl in Hf. inversion Hf; subst. assumption.
Qed.

Lemma sscanf_two (line : cstring) (fmt : list directive) w1 ex1 w2 ex2 rest :
  conversions fmt = (w1, ex1) :: (w2, ex2) :: rest ->
  fst (sscanf line fmt) = 2%Z ->
  field w1 ex1 (arg 0 (snd (sscanf line fmt)))
  /\ field w2 ex2 (arg 1 (snd (sscanf line fmt))).
Proof.
  unfold sscanf. intros Hc Hr.
  destruct (sscanf_from_fields fmt line []) as (toks & Ha & Hf & Hv).
  rewrite Ha in *. cbn [app] in *. rewrite Hr in Hv.
  destruct Hv as [Hv|[Hv _]]; [|discriminate].
  destruct toks as [|t [|t2 [|t3 toks]]]; try (simpl in Hv; lia).
  rewrite Hc in Hf. simpl in Hf.
  inversion Hf as [|? ? ? ? H1 H2]; subst.
  inversion H2; subst. split; assumption.
Qed.

Lemma fields_fit_arg (line : cstring) (fmt : list directive) (i : nat) :
  fields_fit line fmt = true ->
  (length (arg i (snd (sscanf line fmt))) <= 255)%nat.
Proof.
  unfold fields_fit, arg. intros H.
  destruct (nth_in_or_default i (snd (sscanf line fmt)) []) as [Hin|Hd].
  - rewrite forallb_forall in H. apply H in Hin.
    apply Nat.ltb_lt in Hin. lia.
  - rewrite Hd. simpl. lia.
Qed.

Lemma field_within (w w' : nat) (ex : list ascii) (tok : cstring) :
  field w ex tok -> (length tok <= w')%nat -> field w' ex tok.
Proof. intros (Hn & _ & Hf) Hl. repeat split; assumption. Qed.

(** X17. On a line whose scanned fields fit the buffers of the parser, what
    the parser takes from it is well formed: a section name is not empty, has
    fewer than 256 characters and no []]; a key is not empty, has fewer than
    256 characters and no [=], [;] or space; a value is not empty, has fewer
    than 256 characters and no newline, and without [INIO_SPACE_AROUND_DELIM]
    no space either. *)
Theorem recognised_fields (fl : Z) (line : cstring) :
  within_buffers fl line = true ->
  match recognise fl line with
  | Header n => field 255 [ch "]"] n
  | KeyValue k v =>
      field 255 [ch "="; ch ";"; ch " "] k
      /\ field 255 (if has_flag fl INIO_SPACE_AROUND_DELIM
                    then [NL] else [ch " "; NL]) v
  | BareKey k => field 255 [ch "="; ch ";"; ch " "] k
  | Ignored => True
  end.
Proof.
  unfold within_buffers, recognise. intros W.
  apply andb_true_iff in W. destruct W as [Ws W].
  destruct (is_header line) eqn:E1.
  - unfold is_header in E1. apply Z.eqb_eq in E1.
    eapply field_within; [|now apply fields_fit_arg].
    eapply sscanf_one; [reflexivity|exact E1].
  - cbn [orb] in W. apply andb_true_iff in W. destruct W as [Wk W].
    destruct (is_keyvalue fl line) eqn:E2.
    + unfold is_keyvalue in E2. apply Z.eqb_eq in E2.
      assert (L0 := fields_fit_arg line (keyvalfmt fl) 0 Wk).
      assert (L1 := fields_fit_arg line (keyvalfmt fl) 1 Wk).
      revert E2 L0 L1. unfold keyvalfmt.
      destruct (has_flag fl INIO_SPACE_AROUND_DELIM); intros E2 L0 L1.
      * destruct (sscanf_two line fmt_spaces _ _ _ _ _ eq_refl E2) as [F0 F1].
        split; eapply field_within; eassumption.
      * destruct (sscanf_two line fmt_no_spaces _ _ _ _ _ eq_refl E2)
          as [F0 F1].
        split; eapply field_within; eassumption.
    + cbn [orb] in W.
      destruct (has_flag fl INIO_ALLOW_EMPTY); [|exact I].
      cbn [negb orb andb] in *.
      destruct (is_barekey line) eqn:E3; [|exact I].
      unfold is_barekey in E3. apply Z.eqb_eq in E3.
      eapply field_within; [|now apply fields_fit_arg].
      eapply sscanf_one; [reflexivity|exact E3].
Qed.

Lemma recognised_fields_witness :
  within_buffers INIO_NONE (cs "k=v" ++ [NL]) = true
  /\ recognise INIO_NONE (cs "k=v" ++ [NL]) = KeyValue (cs "k") (cs "v")
  /\ field 255 [ch "="; ch ";"; ch " "] (cs "k")
  /\ field 255 [ch " "; NL] (cs "v").
Proof.
  split; [reflexivity|]. split; [reflexivity|].
  exact (recognised_fields INIO_NONE (cs "k=v" ++ [NL]) eq_refl).
Defined.

Lemma take_line_split (room : nat) (s : cstring) :
  fst (take_line room s) ++ snd (take_line room s) = s
  /\ (length (fst (take_line room s)) <= room)%nat
  /\ free_of [NL] (removelast (fst (take_line room s))) = true.
Proof.
  revert s; induction room as [|room IH]; intros s.
  - destruct s; simpl; repeat split; auto.
  - destruct s as [|c s]; [simpl; repeat split; auto with arith|].
    cbn [take_line].
    destruct (Ascii.eqb c NL) eqn:E; [simpl; repeat split; auto with arith|].
    specialize (IH s). destruct (take_line room s) as [l r].
    cbn [fst snd] in *. destruct IH as (Hs & Hl & Hf).
    split; [simpl; now rewrite Hs|]. split; [simpl; lia|].
    destruct l as [|d l]; [reflexivity|].
    change (removelast (c :: d :: l)) with (c :: removelast (d :: l)).
    unfold free_of in *. cbn [forallb]. rewrite Hf.
    unfold excludes. simpl. now rewrite E.
Qed.

Lemma lines_upto_split (n : nat) :
  forall s : cstring,
    (length s <= n)%nat ->
    concat (lines_upto n s) = s
    /\ Forall (fun l => l <> [] /\ (length l <= 511)%nat
                        /\ free_of [NL] (removelast l) = true)
         (lines_upto n s).
Proof.
  induction n as [|n IH]; intros s Hn.
  - destruct s; [simpl; auto|simpl in Hn; lia].
  - destruct s as [|c s]; [simpl; auto|].
    cbn [lines_upto].
    pose proof (take_line_split 511 (c :: s)) as (Hs & Hl & Hf).
    pose proof (take_line_nonempty 510 c s) as N.
    pose proof (take_line_length 511 (c :: s)) as L.
    destruct (take_line 511 (c :: s)) as [l r]. cbn [fst snd] in *.
    destruct (IH r) as [Hc Hall].
    { destruct l; [congruence|]. simpl in *. lia. }
    cbn [concat]. rewrite Hc. split; [exact Hs|].
    constructor; auto.
Qed.

(** X18. The loop of [loadinifromfile] cuts a file that reads without error
    into lines that put together are the file, byte for byte: no line is
    empty, none has more than 511 characters, and a newline can only be the
    last character of a line. *)
Theorem file_lines_partition (content : cstring) :
  concat (file_lines content) = content
  /\ Forall (fun l => l <> [] /\ (length l <= 511)%nat
                      /\ free_of [NL] (removelast l) = true)
       (file_lines content).
Proof. apply lines_upto_split. apply Nat.le_refl. Qed.

Lemma blocks_of_sections_with_pairs (fl : Z) (l : list inisection) :
  concat (map (section_block fl) (filter has_pairs l))
  = concat (map (section_block fl) l).
Proof.
  induction l as [|s l IH]; simpl; [reflexivity|].
  unfold has_pairs at 1. unfold section_block at 2.
  destruct (head s) as [|p ps] eqn:E; simpl; [exact IH|].
  rewrite IH. f_equal. unfold section_block. now rewrite E.
Qed.

(** X19. Sections without pairs leave no trace in the written file: a
    document and the same document without its empty sections are written as
    the same bytes, and [writeinitofile] returns the same value for both. *)
Theorem written_without_empty_sections (ini : inifile) :
  written (prune ini) = written ini
  /\ forall fs filename,
       fst (writeinitofile fs (prune ini) filename)
       = fst (writeinitofile fs ini filename).
Proof.
  split.
  - rewrite !written_layout. unfold layout, prune.
    cbn [flags default_section ihead].
    now rewrite blocks_of_sections_with_pairs.
  - intros fs [fname|]; [|reflexivity]. unfold writeinitofile.
    destruct (writable fs fname); reflexivity.
Qed.

(** ** What a parse leaves in place *)

Lemma map_flat_map {A B C} (f : B -> C) (g : A -> list B) (l : list A) :
  map f (flat_map g l) = flat_map (fun x => map f (g x)) l.
Proof.
  induction l as [|x l IH]; simpl; [reflexivity|].
  now rewrite map_app, IH.
Qed.

Lemma keys_of_eq (ini : inifile) :
  keys_of ini
  = map (fun p => (None, key p)) (default_section ini)
    ++ flat_map (fun s => map (fun k => (Some (name s), k)) (map key (head s)))
         (ihead ini).
Proof.
  unfold keys_of, visits. rewrite map_app, map_map, map_flat_map.
  cbn [fst snd]. f_equal.
  apply flat_map_ext. intros s. now rewrite !map_map.
Qed.

Lemma pair_insert_keys h p :
  incl (map key h) (map key (fst (pair_insert h (Some p)))).
Proof.
  destruct h as [|curr rest]; [intros x []|].
  destruct (pair_insert_loop_shape p curr rest) as (l1 & l2 & Hl & Hs).
  cbn [pair_insert]. rewrite Hl. cbn [fst].
  destruct Hs as [Hs|(q & Hs & Hq)]; rewrite Hs, !map_app; cbn [map].
  - intros x Hx. apply in_app_or in Hx as [Hx|Hx]; apply in_or_app; auto.
    right. now right.
  - rewrite Hq. apply incl_refl.
Qed.

Lemma keys_of_set_sec_head_grow ini s h' :
  incl (map key (sec_head ini s)) (map key h') ->
  incl (keys_of ini) (keys_of (set_sec_head ini s h')).
Proof.
  intros H. rewrite !keys_of_eq. destruct s as [|i]; simpl in *.
  - apply incl_app; [|apply incl_appr, incl_refl].
    apply incl_appl. rewrite <- !(map_map key (fun k => (None, k))).
    intros x Hx. apply in_map_iff in Hx as (k & <- & Hk).
    apply in_map. auto.
  - apply incl_app; [apply incl_appl, incl_refl|].
    apply incl_appr. apply flat_map_alter_grow.
    intros x Hx. rewrite Hx in H. simpl.
    intros y Hy. apply in_map_iff in Hy as (k & <- & Hk).
    apply in_map. auto.
Qed.

(** What [section_insert] keeps, and the position that it returns. *)
Lemma section_insert_keeps (ini : inifile) (sec : inisection) :
  head sec = [] ->
  exists i,
    snd (section_insert ini (Some sec)) = Some i
    /\ nth_error (ihead (fst (section_insert ini (Some sec)))) i <> None
    /\ flags (fst (section_insert ini (Some sec))) = flags ini
    /\ keys_of (fst (section_insert ini (Some sec))) = keys_of ini.
Proof.
  intros Hh.
  assert (N : forall (l1 l2 : list inisection) x,
             nth_error (l1 ++ x :: l2) (length l1) <> None).
  { intros l1 l2 x. induction l1; simpl; [discriminate|auto]. }
  unfold section_insert.
  destruct (ihead ini) as [|curr rest] eqn:E.
  - exists 0%nat. cbn [fst snd ihead flags]. repeat split; [discriminate|].
    rewrite !keys_of_eq. cbn [ihead default_section]. rewrite E. simpl.
    now rewrite Hh.
  - destruct (section_insert_loop_shape sec curr rest)
      as (l1 & l2 & Hs & Hi & Hl).
    destruct (section_insert_loop sec curr rest) as [l i].
    cbn [fst snd ihead flags] in *. subst i.
    exists (length l1). split; [reflexivity|].
    rewrite !keys_of_eq. cbn [ihead default_section]. rewrite E.
    destruct Hl as [->|[-> (q & l2' & -> & Hq)]].
    + repeat split; [apply N|].
      rewrite Hs, !flat_map_app. simpl. now rewrite Hh.
    + repeat split. rewrite Hs. apply N.
Qed.

Lemma process_line_keeps (st : parser) (line : cstring) :
  flags (inif (process_line st line)) = flags (inif st)
  /\ incl (keys_of (inif st)) (keys_of (inif (process_line st line))).
Proof.
  rewrite process_line_act.
  destruct (recognise (flags (inif st)) line) as [n|k v|k|]; cbn [act].
  - unfold enter_section. cbn [inif].
    destruct (section_insert_keeps (inif st) {| name := n; head := [] |}
                eq_refl) as (i & _ & _ & Hf & Hk).
    rewrite Hf, Hk. split; [reflexivity|apply incl_refl].
  - unfold add_pair. cbn [inif].
    split; [apply flags_set_sec_head|].
    apply keys_of_set_sec_head_grow, pair_insert_keys.
  - unfold add_pair. cbn [inif].
    split; [apply flags_set_sec_head|].
    apply keys_of_set_sec_head_grow, pair_insert_keys.
  - split; [reflexivity|apply incl_refl].
Qed.

Lemma load_loop_keeps (fuel : nat) :
  forall (infile : FILE) (st st' : parser) (f' : FILE),
    load_loop fuel infile st = Some (st', f') ->
    flags (inif st') = flags (inif st)
    /\ incl (keys_of (inif st)) (keys_of (inif st')).
Proof.
  induction fuel as [|fuel IH]; intros infile st st' f' H; [discriminate|].
  cbn [load_loop] in H.
  destruct (negb (feof infile) && negb (ferror infile)).
  - destruct (fgets 512 infile) as [[tmpline|] infile'].
    + apply IH in H as [Hf Hk].
      destruct (process_line_keeps st (c_str tmpline)) as [Hf' Hk'].
      split; [congruence|].
      eapply incl_tran; eassumption.
    + now apply IH in H.
  - injection H as <- _. split; [reflexivity|apply incl_refl].
Qed.

(** X20. [loadinifromfile] adds to the document that it is given and takes
    nothing away: whatever the file holds, and also when the file cannot be
    opened or a read fails on the way, the flags are as before and every
    (section name, key) that the traversal visited before is still visited
    afterwards. *)
Theorem loadinifromfile_keeps (fs : filesystem) (ini : inifile)
    (filename : option cstring) :
  match loadinifromfile fs ini filename with
  | Some (_, ini') =>
      flags ini' = flags ini /\ incl (keys_of ini) (keys_of ini')
  | None => False
  end.
Proof.
  unfold loadinifromfile.
  destruct filename as [fname|]; [|split; [reflexivity|apply incl_refl]].
  destruct (fopen_r fs fname) as [infile|] eqn:Ho;
    [|split; [reflexivity|apply incl_refl]].
  destruct (fopen_r_unread _ _ _ Ho) as [He Hr].
  destruct (load_loop_terminates (S (S (length (unread infile)))) infile
              {| inif := ini; tmpsec := DefaultSec |}) as [[st f] Hl].
  { unfold remaining. rewrite He, Hr. simpl. lia. }
  rewrite Hl. apply (load_loop_keeps _ _ _ _ _ Hl).
Qed.

(** X21. [newinifromfile] returns the null pointer exactly when the file name
    is null or the file cannot be opened; otherwise it returns a document that
    carries the flags it was given, whatever the file holds. *)
Theorem newinifromfile_result (fs : filesystem) (filename : option cstring)
    (fl : Z) :
  match newinifromfile fs filename fl with
  | None =>
      filename = None
      \/ exists fname, filename = Some fname /\ fopen_r fs fname = None
  | Some ini =>
      flags ini = fl
      /\ exists fname, filename = Some fname /\ fopen_r fs fname <> None
  end.
Proof.
  unfold newinifromfile, loadinifromfile.
  destruct filename as [fname|]; [|now left].
  destruct (fopen_r fs fname) as [infile|] eqn:Ho.
  - destruct (fopen_r_unread _ _ _ Ho) as [He Hr].
    destruct (load_loop_terminates (S (S (length (unread infile)))) infile
                {| inif := makeini fl; tmpsec := DefaultSec |}) as [[st f] Hl].
    { unfold remaining. rewrite He, Hr. simpl. lia. }
    rewrite Hl. cbn [Z.eqb].
    destruct (load_loop_keeps _ _ _ _ _ Hl) as [Hf _].
    split; [exact Hf|]. exists fname. split; [reflexivity|congruence].
  - cbn [Z.eqb]. right. eauto.
Qed.

Lemma valid_sec_set_sec_head_any ini s s' h :
  valid_sec ini s' -> valid_sec (set_sec_head ini s h) s'.
Proof.
  destruct s' as [|j]; [auto|]. destruct s as [|i]; [auto|].
  simpl. destruct (Nat.eq_dec i j) as [<-|Hne].
  - destruct (nth_error (ihead ini) i) as [x|] eqn:E; [|congruence].
    intros _. rewrite (nth_error_alter_nth _ _ _ _ E). discriminate.
  - now rewrite nth_error_alter_nth_ne.
Qed.

(** X22. The section that the parser holds as current is always a section of
    the document: if it is one before a line is processed, it is one after,
    whatever the line; it is one at the start, being the default section. *)
Theorem tmpsec_stays_valid (st : parser) (line : cstring) :
  valid_sec (inif st) (tmpsec st) ->
  valid_sec (inif (process_line st line)) (tmpsec (process_line st line)).
Proof.
  intros Hv. rewrite process_line_act.
  destruct (recognise (flags (inif st)) line) as [n|k v|k|]; cbn [act].
  - unfold enter_section. cbn [inif tmpsec].
    destruct (section_insert_keeps (inif st) {| name := n; head := [] |}
                eq_refl) as (i & Hi & Hn & _).
    rewrite Hi. exact Hn.
  - unfold add_pair. cbn [inif tmpsec]. now apply valid_sec_set_sec_head_any.
  - unfold add_pair. cbn [inif tmpsec]. now apply valid_sec_set_sec_head_any.
  - exact Hv.
Qed.

Lemma tmpsec_stays_valid_witness :
  let st := {| inif := makeini INIO_NONE; tmpsec := DefaultSec |} in
  valid_sec (inif (process_line st (cs "[S]")))
    (tmpsec (process_line st (cs "[S]"))).
Proof.
  exact (tmpsec_stays_valid
           {| inif := makeini INIO_NONE; tmpsec := DefaultSec |} (cs "[S]") I).
Defined.

(** ** Spaces in a pair line *)

Lemma skip_space_spaces (n : nat) (c : ascii) (rest : cstring) :
  isspace c = false ->
  skip_space (repeat (ch " ") n ++ c :: rest) = c :: rest.
Proof.
  intros H. induction n as [|n IH]; [now apply skip_space_id|exact IH].
Qed.

Lemma spaces_then_delim (n : nat) (rest : cstring) :
  match repeat (ch " ") n ++ ch "=" :: rest with
  | [] => True
  | d :: _ => excludes [ch "="; ch ";"; ch " "] d = true
  end.
Proof. destruct n; reflexivity. Qed.

Lemma key_ok_set (k : cstring) :
  key_ok k = true -> free_of [ch "="; ch ";"; ch " "] k = true.
Proof.
  intros Hk. destruct (key_ok_inv k Hk) as (c & k' & _ & _ & _ & _ & Hfree).
  revert Hfree. apply free_of_incl. sub_set.
Qed.

(** X23. A pair line may be indented with spaces, with either format.  With
    [INIO_SPACE_AROUND_DELIM] it may also have spaces on both sides of [=]:
    the key and the value read are the same as without them. *)
Theorem keyvalue_line_layouts (fl : Z) (k v : cstring) (i n m : nat) :
  key_ok k = true -> value_ok fl v = true ->
  has_flag fl INIO_SPACE_AROUND_DELIM = true \/ (n = 0 /\ m = 0)%nat ->
  recognise fl
    (repeat (ch " ") i ++ k ++ repeat (ch " ") n ++ ch "="
       :: repeat (ch " ") m ++ v ++ [NL])
  = KeyValue k v.
Proof.
  intros Hk Hv Hmode.
  pose proof (key_ok_set k Hk) as Hkey.
  destruct (key_ok_inv k Hk) as (c & k' & -> & Hs & Hb & Hlen & _).
  destruct (value_ok_inv fl v Hv) as (d & v' & -> & Hvlen & Hvfree & Hvm).
  unfold recognise.
  assert (Hhead : is_header
                    (repeat (ch " ") i ++ (c :: k') ++ repeat (ch " ") n
                       ++ ch "=" :: repeat (ch " ") m ++ (d :: v') ++ [NL])
                  = false).
  { unfold is_header, sscanf, fmt_section. scan_space.
    change ((c :: k') ++ ?r) with (c :: (k' ++ r)).
    rewrite (skip_space_spaces _ _ _ Hs). cbn [sscanf_from]. now rewrite Hb. }
  rewrite Hhead.
  assert (Hscan : sscanf
                    (repeat (ch " ") i ++ (c :: k') ++ repeat (ch " ") n
                       ++ ch "=" :: repeat (ch " ") m ++ (d :: v') ++ [NL])
                    (keyvalfmt fl)
                  = (2%Z, [c :: k'; d :: v'])).
  { unfold keyvalfmt, sscanf.
    destruct (has_flag fl INIO_SPACE_AROUND_DELIM) eqn:Hf.
    - unfold fmt_spaces. scan_space.
      change ((c :: k') ++ ?r) with (c :: (k' ++ r)).
      rewrite (skip_space_spaces _ _ _ Hs).
      change (c :: (k' ++ ?r)) with ((c :: k') ++ r).
      rewrite step_notin; [|exact Hkey|lia|apply spaces_then_delim].
      scan_space. rewrite (skip_space_spaces n (ch "=")) by reflexivity.
      rewrite step_char. scan_space.
      change ((d :: v') ++ [NL]) with (d :: (v' ++ [NL])).
      rewrite (skip_space_spaces _ _ _ Hvm).
      change (d :: (v' ++ [NL])) with ((d :: v') ++ [NL]).
      rewrite step_notin; [reflexivity| |lia|reflexivity].
      revert Hvfree. apply free_of_incl. sub_set.
    - destruct Hmode as [Hmode|[-> ->]]; [discriminate|].
      unfold fmt_no_spaces. scan_space. cbn [repeat app].
      rewrite (skip_space_spaces _ _ _ Hs).
      change (c :: (k' ++ ?r)) with ((c :: k') ++ r).
      rewrite step_notin; [|exact Hkey|lia|reflexivity].
      rewrite step_char.
      change (d :: (v' ++ [NL])) with ((d :: v') ++ [NL]).
      rewrite step_notin; [reflexivity| |lia|reflexivity].
      unfold free_of in *. rewrite forallb_forall in *.
      intros x Hx. specialize (Hvfree x Hx). specialize (Hvm x Hx).
      rewrite negb_true_iff in *. unfold excludes in *. simpl in *.
      rewrite !orb_false_r in *.
      apply orb_false_iff in Hvfree as [_ Hnl].
      now rewrite Hvm, Hnl. }
  unfold is_keyvalue. rewrite Hscan. reflexivity.
Qed.

Lemma keyvalue_line_layouts_witness :
  recognise INIO_SPACE_AROUND_DELIM
    (repeat (ch " ") 2 ++ cs "key" ++ repeat (ch " ") 1 ++ ch "="
       :: repeat (ch " ") 3 ++ cs "some value" ++ [NL])
  = KeyValue (cs "key") (cs "some value").
Proof.
  exact (keyvalue_line_layouts INIO_SPACE_AROUND_DELIM (cs "key")
           (cs "some value") 2 1 3 eq_refl eq_refl (or_introl eq_refl)).
Defined.

(** X24. Without [INIO_SPACE_AROUND_DELIM] a space on either side of [=] keeps
    a line from being read as a pair, whatever follows: with
    [INIO_ALLOW_EMPTY] the line is read as the bare key, with no value, and
    without it the line is ignored. *)
Theorem space_at_delimiter_without_option (fl : Z) (k rest : cstring)
    (n m : nat) :
  has_flag fl INIO_SPACE_AROUND_DELIM = false ->
  key_ok k = true ->
  (0 < n \/ 0 < m)%nat ->
  recognise fl (k ++ repeat (ch " ") n ++ ch "=" :: repeat (ch " ") m ++ rest)
  = if has_flag fl INIO_ALLOW_EMPTY then BareKey k else Ignored.
Proof.
  intros Hf Hk Hnm.
  pose proof (key_ok_set k Hk) as Hkey.
  destruct (key_ok_inv k Hk) as (c & k' & -> & Hs & Hb & Hlen & _).
  unfold recognise.
  rewrite (key_line_not_header (c :: k') _ Hk).
  assert (Hkv : is_keyvalue fl
                  ((c :: k') ++ repeat (ch " ") n ++ ch "="
                     :: repeat (ch " ") m ++ rest) = false).
  { unfold is_keyvalue, keyvalfmt, sscanf. rewrite Hf.
    unfold fmt_no_spaces. scan_space.
    change ((c :: k') ++ ?r) with (c :: (k' ++ r)).
    rewrite (skip_space_id _ _ Hs).
    change (c :: (k' ++ ?r)) with ((c :: k') ++ r).
    rewrite step_notin; [|exact Hkey|lia|apply spaces_then_delim].
    destruct n as [|n]; [|reflexivity].
    destruct m as [|m]; [lia|]. reflexivity. }
  rewrite Hkv.
  destruct (has_flag fl INIO_ALLOW_EMPTY); [|reflexivity]. cbn [andb].
  assert (Hbk : sscanf ((c :: k') ++ repeat (ch " ") n ++ ch "="
                          :: repeat (ch " ") m ++ rest) fmt_key
                = (1%Z, [c :: k'])).
  { unfold sscanf, fmt_key. scan_space.
    change ((c :: k') ++ ?r) with (c :: (k' ++ r)).
    rewrite (skip_space_id _ _ Hs).
    change (c :: (k' ++ ?r)) with ((c :: k') ++ r).
    rewrite step_notin; [reflexivity|exact Hkey|lia|apply spaces_then_delim]. }
  unfold is_barekey. rewrite Hbk. reflexivity.
Qed.

Lemma space_at_delimiter_without_option_witness :
  recognise INIO_ALLOW_EMPTY
    (cs "x" ++ repeat (ch " ") 1 ++ ch "=" :: repeat (ch " ") 1 ++ cs "5")
  = if has_flag INIO_ALLOW_EMPTY INIO_ALLOW_EMPTY
    then BareKey (cs "x") else Ignored.
Proof.
  exact (space_at_delimiter_without_option INIO_ALLOW_EMPTY (cs "x") (cs "5")
           1 1 eq_refl eq_refl (or_introl (le_n 1))).
Defined.
